(** * Engine base class: the algorithm cache and the prototype lookups

    A shallow embedding of [src/libstate/engine/engine.cpp]: the generic
    [Algorithm_Cache_Impl<T>], the four [Engine::prototype_*] lookups, the
    four [Engine::add_algorithm] overloads, [Engine::initialize], the
    constructor and the destructor.

    Objects live behind raw pointers in the source, and what the cache
    promises is about which pointer is deleted when.  Pointers are therefore
    addresses, an address may be handed to the cache any number of times,
    and every observable effect ([delete], the map assignment, locking, the
    provider search, [Mutex_Factory::make]) is recorded in a trace. *)

From Stdlib Require Import NArith String.
From stdpp Require Import gmap strings list fin_maps sorting.

Local Open Scope string_scope.
Local Open Scope list_scope.

(** ** Pointers and primitive kinds *)

(** A [T*]: an address, [0] being the null pointer. *)
Abbreviation ptr := N (only parsing).

Definition null : ptr := 0%N.

(** The conversion of a pointer to [bool], as in [if(algo)] and [!algo]. *)
Definition is_set (p : ptr) : bool := negb (N.eqb p 0).

(** The four instantiations of the cache. *)
Inductive prim : Type :=
  | BlockCipher
  | StreamCipher
  | HashFunction
  | MessageAuthenticationCode.

#[global] Instance prim_eq_dec : EqDecision prim.
Proof. solve_decision. Defined.

(** ** Observable effects *)

Inductive event : Type :=
  | Lock (m : ptr)                      (* Mutex_Holder constructed on m *)
  | Unlock (m : ptr)                    (* Mutex_Holder leaves scope *)
  | Delete (p : ptr)                    (* delete of an algorithm object *)
  | Assign (name : string) (p : ptr)    (* mappings[name] = p *)
  | DeleteMutex (m : ptr)               (* delete mutex *)
  | Search (k : prim) (request : string) (* find_block_cipher and its siblings *)
  | Make (m : ptr).                     (* mf.make() returned m *)

#[global] Instance event_eq_dec : EqDecision event.
Proof. solve_decision. Defined.

(** The algorithm objects deleted along a trace, in order. *)
Fixpoint deleted (t : list event) : list ptr :=
  match t with
  | [] => []
  | Delete p :: t' => p :: deleted t'
  | _ :: t' => deleted t'
  end.

(** The algorithm objects assigned into some map along a trace. *)
Fixpoint assigned (t : list event) : list ptr :=
  match t with
  | [] => []
  | Assign _ p :: t' => p :: assigned t'
  | _ :: t' => assigned t'
  end.

(** The provider searches along a trace. *)
Fixpoint searches (t : list event) : list (prim * string) :=
  match t with
  | [] => []
  | Search k r :: t' => (k, r) :: searches t'
  | _ :: t' => searches t'
  end.

(** The mutexes made along a trace. *)
Fixpoint made (t : list event) : list ptr :=
  match t with
  | [] => []
  | Make m :: t' => m :: made t'
  | _ :: t' => made t'
  end.

(** How often the algorithm object [p] is deleted along [t]. *)
Definition times_deleted (p : ptr) (t : list event) : nat :=
  length (filter (λ q, q = p) (deleted t)).

(** ** The cache *)

(** [Algorithm_Cache_Impl<T>]: its two data members. *)
Record Algorithm_Cache_Impl : Type := mkCache {
  mutex : ptr;
  mappings : gmap string ptr
}.

(** Modelled from the spec: [search_map] is declared in [botan/stl_util.h],
    which is not among the sources.  For [get] the spec says: "Returns
    nothing if no entry exists for [name]"; otherwise it is the mapped
    value. *)
Definition search_map (mapping : gmap string ptr) (key : string) : ptr :=
  match mapping !! key with
  | Some v => v
  | None => null
  end.

(** Modelled from the spec: [Mutex_Holder] is declared in [botan/mutex.h],
    which is not among the sources.  The spec has [get] and [add] acquire
    the cache's lock and release it on all exit paths: the holder locks the
    mutex where it is declared and unlocks it at the end of the scope, whose
    effects are [body]. *)
Definition Mutex_Holder (m : ptr) (body : list event) : list event :=
  [Lock m] ++ body ++ [Unlock m].

(** The map holds [p] under some name. *)
Definition holds (m : gmap string ptr) (p : ptr) : Prop :=
  ∃ n, m !! n = Some p.

(** No instance is mapped under two names. *)
Definition exclusive (m : gmap string ptr) : Prop :=
  ∀ n1 n2 p, m !! n1 = Some p → m !! n2 = Some p → n1 = n2.

(** Nothing deleted along [evs] is still a current value of the cache. *)
Definition none_dangling (c : Algorithm_Cache_Impl) (evs : list event) : Prop :=
  ∀ p, p ∈ deleted evs → ¬ holds (mappings c) p.

(** A pointer a caller got from [get] still points to a live object after
    the events [evs]. *)
Definition view_valid (view : ptr) (evs : list event) : Prop :=
  view ∉ deleted evs.

(** [std::map] iterates in key order. *)
Definition key_le (a b : string * ptr) : Prop := String.leb a.1 b.1 = true.

#[global] Instance key_le_dec a b : Decision (key_le a b).
Proof. unfold key_le. apply _. Defined.

Definition in_key_order (m : gmap string ptr) : list (string * ptr) :=
  merge_sort key_le (map_to_list m).

(** The instances a map holds, one per entry, in iteration order. *)
Definition instances (m : gmap string ptr) : list ptr :=
  (in_key_order m).*2.

(** ** The engine and its states *)

(** The four data members of [Engine]; a null cache pointer is [None]. *)
Record Engine : Type := mkEngine {
  cache_of_bc : option Algorithm_Cache_Impl;
  cache_of_sc : option Algorithm_Cache_Impl;
  cache_of_hf : option Algorithm_Cache_Impl;
  cache_of_mac : option Algorithm_Cache_Impl
}.

Definition slot (k : prim) (e : Engine) : option Algorithm_Cache_Impl :=
  match k with
  | BlockCipher => cache_of_bc e
  | StreamCipher => cache_of_sc e
  | HashFunction => cache_of_hf e
  | MessageAuthenticationCode => cache_of_mac e
  end.

Definition set_slot (k : prim) (c : option Algorithm_Cache_Impl) (e : Engine)
  : Engine :=
  match k with
  | BlockCipher =>
      mkEngine c (cache_of_sc e) (cache_of_hf e) (cache_of_mac e)
  | StreamCipher =>
      mkEngine (cache_of_bc e) c (cache_of_hf e) (cache_of_mac e)
  | HashFunction =>
      mkEngine (cache_of_bc e) (cache_of_sc e) c (cache_of_mac e)
  | MessageAuthenticationCode =>
      mkEngine (cache_of_bc e) (cache_of_sc e) (cache_of_hf e) c
  end.

(** The engine together with what has been observed so far. *)
Record state : Type := mkState {
  engine : Engine;
  trace : list event
}.

(** How a member function can end: it returns, it leaves by an exception
    (an assertion or a throw), or it runs into undefined behaviour, here
    always a member call through a null pointer. *)
Inductive outcome (A : Type) : Type :=
  | Returns (a : A) (s : state)
  | Thrown (s : state)
  | Undefined.

Arguments Returns {A} a s.
Arguments Thrown {A} s.
Arguments Undefined {A}.

Definition M (A : Type) : Type := state → outcome A.

#[global] Instance M_ret : MRet M := λ A a s, Returns a s.

#[global] Instance M_bind : MBind M := λ A B f m s,
  match m s with
  | Returns a s' => f a s'
  | Thrown s' => Thrown s'
  | Undefined => Undefined
  end.

Definition observe (evs : list event) : M unit :=
  λ s, Returns tt (mkState (engine s) (trace s ++ evs)).

(** A checked failure, as opposed to a return or to undefined behaviour. *)
Definition signalled {A : Type} (o : outcome A) : bool :=
  match o with
  | Thrown _ => true
  | _ => false
  end.

(** What the cache of kind [k] maps [name] to; null when there is no such
    cache or no such entry. *)
Definition cached_under (k : prim) (name : string) (s : state) : ptr :=
  match slot k (engine s) with
  | Some c => search_map (mappings c) name
  | None => null
  end.

(** ** A small world to run the definitions in *)

Module Sample.

(** Objects 1 and 2 call themselves AES-128, object 3 SHA-160, and every
    other object has the empty name. *)
Definition algo_name (p : ptr) : string :=
  if (p =? 1)%N then "AES-128"
  else if (p =? 2)%N then "AES-128"
  else if (p =? 3)%N then "SHA-160"
  else "".

(** Requests are their canonical strings. *)
Definition as_string (request : string) : string := request.

(** A factory that answers every request with the object it was set up
    with. *)
Definition find (request : string) (af : ptr) : ptr := af.

(** Mutexes are numbered from the factory's counter on. *)
Definition make (mf : ptr) : ptr * ptr := (mf, (mf + 1)%N).

Definition one_entry (name : string) (p : ptr) : Algorithm_Cache_Impl :=
  mkCache 100%N {[ name := p ]}.

Definition two_entries (n1 : string) (p1 : ptr) (n2 : string) (p2 : ptr)
  : Algorithm_Cache_Impl :=
  mkCache 100%N (<[ n2 := p2 ]> {[ n1 := p1 ]}).

(** An engine right after [initialize] with the factory at 100. *)
Definition fresh : state :=
  mkState
    (mkEngine (Some (mkCache 100%N ∅)) (Some (mkCache 101%N ∅))
              (Some (mkCache 102%N ∅)) (Some (mkCache 103%N ∅)))
    [Make 100%N; Make 101%N; Make 102%N; Make 103%N].

(** An engine whose block cipher cache holds object 1 as AES-128. *)
Definition warm : state :=
  mkState
    (mkEngine (Some (one_entry "AES-128" 1%N)) (Some (mkCache 101%N ∅))
              (Some (mkCache 102%N ∅)) (Some (mkCache 103%N ∅)))
    [].

End Sample.

Section engine.

(** What the translation unit takes from elsewhere. *)
Variable algo_name : ptr → string.            (* the virtual T::name() *)
Variable SCAN_Name : Type.
Variable as_string : SCAN_Name → string.      (* SCAN_Name::as_string() *)
Variable Algorithm_Factory : Type.
Variable find_block_cipher : SCAN_Name → Algorithm_Factory → ptr.
Variable find_stream_cipher : SCAN_Name → Algorithm_Factory → ptr.
Variable find_hash : SCAN_Name → Algorithm_Factory → ptr.
Variable find_mac : SCAN_Name → Algorithm_Factory → ptr.
Variable Mutex_Factory : Type.
Variable make : Mutex_Factory → ptr * Mutex_Factory.  (* Mutex_Factory::make() *)

(** [T* get(const std::string& name) const] *)
Definition get (this : Algorithm_Cache_Impl) (name : string)
  : ptr * list event :=
  (search_map (mappings this) name, Mutex_Holder (mutex this) []).

(** The default argument of [add]: [index_name = ""].  [add_algorithm]
    calls [add] with one argument and so with this one. *)
Definition default_index_name : string := "".

(** The key [add] stores under. *)
Definition add_key (algo : ptr) (index_name : string) : string :=
  if negb (String.eqb index_name "") then index_name else algo_name algo.

(** [if(mappings.find(name) != mappings.end()) delete mappings[name];] *)
Definition delete_mapped (this : Algorithm_Cache_Impl) (name : string)
  : list event :=
  match mappings this !! name with
  | Some old => [Delete old]
  | None => []
  end.

(** [void add(T* algo, const std::string& index_name = "") const] *)
Definition add (this : Algorithm_Cache_Impl) (algo : ptr) (index_name : string)
  : Algorithm_Cache_Impl * list event :=
  if negb (is_set algo) then (this, [])
  else
    let name := add_key algo index_name in
    (mkCache (mutex this) (<[name := algo]> (mappings this)),
     Mutex_Holder (mutex this) (delete_mapped this name ++ [Assign name algo])).

(** [Algorithm_Cache_Impl(Mutex* m) : mutex(m) {}] *)
Definition Algorithm_Cache_Impl_ctor (m : ptr) : Algorithm_Cache_Impl :=
  mkCache m ∅.

(** [~Algorithm_Cache_Impl()] *)
Definition Algorithm_Cache_Impl_dtor (this : Algorithm_Cache_Impl)
  : list event :=
  map Delete (instances (mappings this)) ++ [DeleteMutex (mutex this)].

(** ** The engine's member functions *)

Definition find (k : prim) : SCAN_Name → Algorithm_Factory → ptr :=
  match k with
  | BlockCipher => find_block_cipher
  | StreamCipher => find_stream_cipher
  | HashFunction => find_hash
  | MessageAuthenticationCode => find_mac
  end.

(** [cache_of_k->get(name)] *)
Definition cache_get (k : prim) (name : string) : M ptr :=
  λ s, match slot k (engine s) with
       | None => Undefined
       | Some c =>
           let '(p, evs) := get c name in
           Returns p (mkState (engine s) (trace s ++ evs))
       end.

(** [cache_of_k->add(algo, index_name)] *)
Definition cache_add (k : prim) (algo : ptr) (index_name : string) : M unit :=
  λ s, match slot k (engine s) with
       | None => Undefined
       | Some c =>
           let '(c', evs) := add c algo index_name in
           Returns tt (mkState (set_slot k (Some c') (engine s))
                               (trace s ++ evs))
       end.

(** A call of the provider search of kind [k]. *)
Definition search (k : prim) (request : SCAN_Name) (af : Algorithm_Factory)
  : M ptr :=
  observe [Search k (as_string request)];; mret (find k request af).

(** [Engine::prototype_block_cipher] *)
Definition prototype_block_cipher (request : SCAN_Name)
    (af : Algorithm_Factory) : M ptr :=
  algo ← cache_get BlockCipher (as_string request);
  if is_set algo then mret algo
  else
    (* cache miss: do full search *)
    algo ← search BlockCipher request af;
    (if is_set algo
     then cache_add BlockCipher algo (as_string request)
     else mret tt);;
    mret algo.

(** [Engine::prototype_stream_cipher] *)
Definition prototype_stream_cipher (request : SCAN_Name)
    (af : Algorithm_Factory) : M ptr :=
  algo ← cache_get StreamCipher (as_string request);
  if is_set algo then mret algo
  else
    algo ← search StreamCipher request af;
    (if is_set algo
     then cache_add StreamCipher algo (as_string request)
     else mret tt);;
    mret algo.

(** [Engine::prototype_hash_function] *)
Definition prototype_hash_function (request : SCAN_Name)
    (af : Algorithm_Factory) : M ptr :=
  algo ← cache_get HashFunction (as_string request);
  if is_set algo then mret algo
  else
    algo ← search HashFunction request af;
    (if is_set algo
     then cache_add HashFunction algo (as_string request)
     else mret tt);;
    mret algo.

(** [Engine::prototype_mac] *)
Definition prototype_mac (request : SCAN_Name)
    (af : Algorithm_Factory) : M ptr :=
  algo ← cache_get MessageAuthenticationCode (as_string request);
  if is_set algo then mret algo
  else
    algo ← search MessageAuthenticationCode request af;
    (if is_set algo
     then cache_add MessageAuthenticationCode algo (as_string request)
     else mret tt);;
    mret algo.

(** The four lookups are one algorithm; [prototype k] is it. *)
Definition prototype (k : prim) : SCAN_Name → Algorithm_Factory → M ptr :=
  match k with
  | BlockCipher => prototype_block_cipher
  | StreamCipher => prototype_stream_cipher
  | HashFunction => prototype_hash_function
  | MessageAuthenticationCode => prototype_mac
  end.

(** [Engine::add_algorithm(BlockCipher* algo)]: the cache's [add] with its
    default [index_name]. *)
Definition add_algorithm_bc (algo : ptr) : M unit :=
  cache_add BlockCipher algo default_index_name.

(** [Engine::add_algorithm(StreamCipher* algo)] *)
Definition add_algorithm_sc (algo : ptr) : M unit :=
  cache_add StreamCipher algo default_index_name.

(** [Engine::add_algorithm(HashFunction* algo)] *)
Definition add_algorithm_hf (algo : ptr) : M unit :=
  cache_add HashFunction algo default_index_name.

(** [Engine::add_algorithm(MessageAuthenticationCode* algo)] *)
Definition add_algorithm_mac (algo : ptr) : M unit :=
  cache_add MessageAuthenticationCode algo default_index_name.

Definition add_algorithm (k : prim) : ptr → M unit :=
  match k with
  | BlockCipher => add_algorithm_bc
  | StreamCipher => add_algorithm_sc
  | HashFunction => add_algorithm_hf
  | MessageAuthenticationCode => add_algorithm_mac
  end.

(** [new Algorithm_Cache_Impl<T>(mf.make())], stored into the slot [k]. *)
Definition new_cache (k : prim) (mf : Mutex_Factory) : M Mutex_Factory :=
  λ s, let '(m, mf') := make mf in
       Returns mf' (mkState (set_slot k (Some (Algorithm_Cache_Impl_ctor m))
                                      (engine s))
                            (trace s ++ [Make m])).

(** [Engine::initialize]; the factory is passed by reference, so the
    factory as the four calls leave it is handed back. *)
Definition initialize (mf : Mutex_Factory) : M Mutex_Factory :=
  mf ← new_cache BlockCipher mf;
  mf ← new_cache StreamCipher mf;
  mf ← new_cache HashFunction mf;
  new_cache MessageAuthenticationCode mf.

(** [Engine::Engine()] *)
Definition Engine_ctor : Engine := mkEngine None None None None.

(** [delete cache_of_k]: nothing for a null pointer, the destructor of the
    cache otherwise. *)
Definition delete_cache (c : option Algorithm_Cache_Impl) : list event :=
  match c with
  | None => []
  | Some c => Algorithm_Cache_Impl_dtor c
  end.

(** [Engine::~Engine()], as the trace it leaves behind. *)
Definition Engine_dtor (s : state) : list event :=
  trace s
  ++ delete_cache (cache_of_bc (engine s))
  ++ delete_cache (cache_of_sc (engine s))
  ++ delete_cache (cache_of_hf (engine s))
  ++ delete_cache (cache_of_mac (engine s)).

(** ** Whole lifetimes *)

(** What a client asks of an engine. *)
Inductive call : Type :=
  | Register (k : prim) (algo : ptr)
  | Acquire (k : prim) (request : SCAN_Name) (af : Algorithm_Factory).

Definition perform (c : call) : M unit :=
  match c with
  | Register k algo => add_algorithm k algo
  | Acquire k request af => (prototype k request af);; mret tt
  end.

Fixpoint perform_all (cs : list call) : M unit :=
  match cs with
  | [] => mret tt
  | c :: cs' => perform c;; perform_all cs'
  end.

(** Construct, initialize, serve the calls, destroy: the trace of it all. *)
Definition lifetime (mf : Mutex_Factory) (cs : list call)
  : option (list event) :=
  match (initialize mf;; perform_all cs) (mkState Engine_ctor []) with
  | Returns _ s => Some (Engine_dtor s)
  | _ => None
  end.

(** The instances a cache slot holds. *)
Definition held (c : option Algorithm_Cache_Impl) : list ptr :=
  match c with
  | None => []
  | Some c => instances (mappings c)
  end.

(** The instances the four caches of an engine hold. *)
Definition owned (e : Engine) : list ptr :=
  held (cache_of_bc e) ++ held (cache_of_sc e)
  ++ held (cache_of_hf e) ++ held (cache_of_mac e).

(** The pointer a call hands to a cache: the registered one, or what the
    search returns when the lookup misses. *)
Definition incoming (c : call) (s : state) : ptr :=
  match c with
  | Register _ algo => algo
  | Acquire k request af =>
      match slot k (engine s) with
      | Some c =>
          if is_set (search_map (mappings c) (as_string request))
          then null
          else find k request af
      | None => null
      end
  end.

(** The caller's side of the ownership transfer: what is handed over is an
    object no cache holds and nobody has deleted. *)
Definition handed_over (p : ptr) (s : state) : Prop :=
  is_set p = true → (p ∉ owned (engine s)) ∧ (p ∉ deleted (trace s)).

Fixpoint disciplined (cs : list call) (s : state) : Prop :=
  match cs with
  | [] => True
  | c :: cs' =>
      handed_over (incoming c s) s
      ∧ match perform c s with
        | Returns _ s' => disciplined cs' s'
        | _ => True
        end
  end.

#[global] Instance handed_over_dec p s : Decision (handed_over p s).
Proof. unfold handed_over. apply _. Defined.

#[global] Instance disciplined_dec cs s : Decision (disciplined cs s).
Proof.
  revert s. induction cs as [|c cs IH]; intros s; simpl; [apply _|].
  destruct (perform c s); apply _.
Defined.

(** The ownership invariant of an initialized engine: the four caches are
    there, no object is deleted twice or held twice or held after its
    deletion, and what was ever assigned into a map is held or deleted. *)
Definition sound (s : state) : Prop :=
  (∀ k, is_Some (slot k (engine s)))
  ∧ NoDup (deleted (trace s) ++ owned (engine s))
  ∧ (∀ p, p ∈ assigned (trace s) → p ∈ deleted (trace s) ++ owned (engine s)).

(** ** Runs of an initialized engine *)

(** The mutexes deleted along a trace. *)
Fixpoint mutexes_deleted (t : list event) : list ptr :=
  match t with
  | [] => []
  | DeleteMutex m :: t' => m :: mutexes_deleted t'
  | _ :: t' => mutexes_deleted t'
  end.

(** Lock bookkeeping along a trace, starting with [held]: a lock is taken
    only when none is held and released only by its holder, the map is
    assigned and an object deleted only under a lock, and a search, a
    [make] and the deletion of a mutex happen only with no lock held.
    [None] when the trace breaks one of these, the lock held at the end
    otherwise. *)
Fixpoint locking (held : option ptr) (t : list event) : option (option ptr) :=
  match t with
  | [] => Some held
  | Lock m :: t' =>
      match held with
      | None => locking (Some m) t'
      | Some _ => None
      end
  | Unlock m :: t' =>
      match held with
      | Some m' => if N.eqb m m' then locking None t' else None
      | None => None
      end
  | Delete _ :: t' | Assign _ _ :: t' =>
      match held with
      | Some _ => locking held t'
      | None => None
      end
  | DeleteMutex _ :: t' | Search _ _ :: t' | Make _ :: t' =>
      match held with
      | None => locking held t'
      | Some _ => None
      end
  end.

(** All four caches are there. *)
Definition initialized (s : state) : Prop :=
  ∀ k, is_Some (slot k (engine s)).

(** No cache maps a name to the null pointer. *)
Definition no_null_entry (s : state) : Prop :=
  ∀ k c n p, slot k (engine s) = Some c → mappings c !! n = Some p →
             is_set p = true.


(** What a call observes without storing anything: nothing (a null
    registration), a lookup that hits, or a lookup that misses followed by
    a search that finds nothing. *)
Inductive quiet (m : ptr) (k : prim) : list event → Prop :=
  | quiet_nothing : quiet m k []
  | quiet_hit : quiet m k [Lock m; Unlock m]
  | quiet_miss n : quiet m k [Lock m; Unlock m; Search k n].

(** What a call stores before it calls [add]: nothing (a registration) or
    the miss and the search (a lookup). *)
Inductive prelude (m : ptr) (k : prim) : list event → Prop :=
  | prelude_register : prelude m k []
  | prelude_lookup n : prelude m k [Lock m; Unlock m; Search k n].

(** The two ways a call changes the state of an initialized engine. *)
Inductive step : state → state → Prop :=
  | step_quiet s k c evs :
      slot k (engine s) = Some c →
      quiet (mutex c) k evs →
      step s (mkState (engine s) (trace s ++ evs))
  | step_add s k c algo index_name pre :
      slot k (engine s) = Some c →
      is_set algo = true →
      prelude (mutex c) k pre →
      step s (mkState (set_slot k (Some (add c algo index_name).1) (engine s))
                      (trace s ++ pre ++ (add c algo index_name).2)).

(** The lookups among the calls. *)
Fixpoint acquisitions (cs : list call) : nat :=
  match cs with
  | [] => 0
  | Register _ _ :: cs' => acquisitions cs'
  | Acquire _ _ _ :: cs' => S (acquisitions cs')
  end.

(** ** Traces *)

Lemma deleted_app (t u : list event) : deleted (t ++ u) = deleted t ++ deleted u.
Proof. induction t as [|[] t IH]; simpl; by rewrite ?IH. Qed.

Lemma assigned_app (t u : list event) :
  assigned (t ++ u) = assigned t ++ assigned u.
Proof. induction t as [|[] t IH]; simpl; by rewrite ?IH. Qed.

Lemma searches_app (t u : list event) :
  searches (t ++ u) = searches t ++ searches u.
Proof. induction t as [|[] t IH]; simpl; by rewrite ?IH. Qed.

Lemma made_app (t u : list event) : made (t ++ u) = made t ++ made u.
Proof. induction t as [|[] t IH]; simpl; by rewrite ?IH. Qed.

Lemma deleted_map_Delete (l : list ptr) : deleted (map Delete l) = l.
Proof. induction l; simpl; by rewrite ?IHl. Qed.

Lemma is_set_true (p : ptr) : is_set p = true ↔ p ≠ null.
Proof.
  unfold is_set, null. rewrite negb_true_iff, N.eqb_neq. done.
Qed.

(** Projections of a trace distribute over what is appended to it. *)
Create Rewrite HintDb trace.
#[local] Hint Rewrite deleted_app assigned_app searches_app made_app : trace.

Ltac trace_simpl :=
  autorewrite with trace; simpl; rewrite ?app_nil_r.

(** ** The engine's member functions, unfolded once *)

Lemma slot_set_slot_eq k c e : slot k (set_slot k c e) = c.
Proof. by destruct k. Qed.

Lemma slot_set_slot_ne k k' c e : k ≠ k' → slot k' (set_slot k c e) = slot k' e.
Proof. by destruct k, k'. Qed.

Lemma set_slot_id k c e : slot k e = c → set_slot k c e = e.
Proof. destruct k, e; simpl; by intros ->. Qed.

Lemma state_eta s : mkState (engine s) (trace s) = s.
Proof. by destruct s. Qed.

Lemma cache_add_unfold k algo index_name s :
  cache_add k algo index_name s =
  match slot k (engine s) with
  | None => Undefined
  | Some c =>
      Returns tt (mkState (set_slot k (Some (add c algo index_name).1) (engine s))
                          (trace s ++ (add c algo index_name).2))
  end.
Proof.
  unfold cache_add. destruct (slot k (engine s)); [|done].
  by destruct (add _ _ _).
Qed.

Lemma add_algorithm_unfold k algo s :
  add_algorithm k algo s = cache_add k algo default_index_name s.
Proof. by destruct k. Qed.

Lemma prototype_unfold k request af s :
  prototype k request af s =
  match slot k (engine s) with
  | None => Undefined
  | Some c =>
      let name := as_string request in
      let seen := trace s ++ [Lock (mutex c); Unlock (mutex c)] in
      let cached := search_map (mappings c) name in
      if is_set cached then Returns cached (mkState (engine s) seen)
      else
        let algo := find k request af in
        if is_set algo
        then Returns algo
               (mkState (set_slot k (Some (add c algo name).1) (engine s))
                        ((seen ++ [Search k name]) ++ (add c algo name).2))
        else Returns algo (mkState (engine s) (seen ++ [Search k name]))
  end.
Proof.
  destruct (slot k (engine s)) as [c|] eqn:Hc;
    destruct k; simpl in Hc |- *;
    unfold prototype_block_cipher, prototype_stream_cipher,
      prototype_hash_function, prototype_mac, search, observe, cache_get,
      mbind, M_bind, mret, M_ret; simpl; rewrite Hc; try done; simpl;
    (destruct (is_set (search_map _ _)); [done|]);
    (destruct (is_set _) eqn:Hfound; [|done]);
    rewrite cache_add_unfold; simpl; by rewrite Hc.
Qed.

(** ** The cache's [add] and [get] *)

Lemma add_unfold c algo index_name :
  is_set algo = true →
  add c algo index_name =
  (mkCache (mutex c) (<[add_key algo index_name := algo]> (mappings c)),
   [Lock (mutex c)] ++ delete_mapped c (add_key algo index_name)
   ++ [Assign (add_key algo index_name) algo; Unlock (mutex c)]).
Proof.
  intros Hset. unfold add, Mutex_Holder. rewrite Hset. simpl.
  by rewrite <- app_assoc.
Qed.

Lemma add_key_given algo index_name :
  index_name ≠ "" → add_key algo index_name = index_name.
Proof.
  intros Hne. unfold add_key.
  destruct (String.eqb_spec index_name ""); [done|done].
Qed.

Lemma add_key_default algo : add_key algo "" = algo_name algo.
Proof. done. Qed.

Lemma searches_add c algo index_name : searches (add c algo index_name).2 = [].
Proof.
  unfold add, Mutex_Holder, delete_mapped.
  destruct (negb (is_set algo)); [done|]. simpl.
  by destruct (mappings c !! _).
Qed.

Lemma deleted_add c algo index_name :
  deleted (add c algo index_name).2 =
  if is_set algo then option_list (mappings c !! add_key algo index_name)
  else [].
Proof.
  unfold add, Mutex_Holder, delete_mapped.
  destruct (is_set algo); [|done]. simpl.
  by destruct (mappings c !! _).
Qed.

(** C6: for every cache and every name, [add] of a null instance returns at
    once: the cache is the one it was and nothing is observed (no delete, no
    assignment, not even the lock); so a registration of a null pointer on an
    initialized engine leaves the engine as it was. *)
Theorem add_null_is_noop (c : Algorithm_Cache_Impl) (index_name : string)
    (k : prim) (s : state) :
  slot k (engine s) = Some c →
  add c null index_name = (c, [])
  ∧ cache_add k null index_name s = Returns tt s
  ∧ add_algorithm k null s = Returns tt s.
Proof.
  intros Hc. split; [done|].
  rewrite add_algorithm_unfold, !cache_add_unfold, Hc. simpl.
  rewrite (set_slot_id _ _ _ Hc), app_nil_r, state_eta. done.
Qed.

(** C5: [add] of a non-null instance stores it under [index_name] when a
    name is given (one that is not the default, the empty string) and under
    the instance's own [name()] otherwise; [add_algorithm], which passes no
    name, stores under the instance's own [name()]. *)
Theorem add_stores_under_given_or_own_name (c : Algorithm_Cache_Impl)
    (algo : ptr) (index_name : string) (k : prim) (s : state) :
  is_set algo = true →
  slot k (engine s) = Some c →
  let key := if String.eqb index_name default_index_name
             then algo_name algo else index_name in
  let own := algo_name algo in
  add c algo index_name =
    (mkCache (mutex c) (<[key := algo]> (mappings c)),
     [Lock (mutex c)] ++ delete_mapped c key
     ++ [Assign key algo; Unlock (mutex c)])
  ∧ add_algorithm k algo s =
      Returns tt
        (mkState
           (set_slot k (Some (mkCache (mutex c) (<[own := algo]> (mappings c))))
              (engine s))
           (trace s ++ [Lock (mutex c)] ++ delete_mapped c own
            ++ [Assign own algo; Unlock (mutex c)])).
Proof.
  intros Hset Hc key own. split.
  - rewrite add_unfold by done. subst key. unfold default_index_name.
    destruct (String.eqb_spec index_name "") as [->|Hn].
    + by rewrite add_key_default.
    + by rewrite add_key_given.
  - rewrite add_algorithm_unfold, cache_add_unfold, Hc.
    unfold default_index_name. rewrite add_unfold by done.
    by rewrite add_key_default.
Qed.

(** C10, as the code has it: for a non-null instance, [add] with an
    explicit empty string is [add] with the default argument: the entry goes
    under the instance's own [name()] and no other key of the map changes.
    The empty string passed as [index_name] is never the key by itself; the
    map gets an entry under the empty string exactly when the instance's own
    name is the empty string. *)
Theorem add_empty_name_is_default (c : Algorithm_Cache_Impl) (algo : ptr) :
  is_set algo = true →
  add c algo "" = add c algo default_index_name
  ∧ add c algo "" =
      (mkCache (mutex c) (<[algo_name algo := algo]> (mappings c)),
       [Lock (mutex c)] ++ delete_mapped c (algo_name algo)
       ++ [Assign (algo_name algo) algo; Unlock (mutex c)])
  ∧ mappings (add c algo "").1 !! algo_name algo = Some algo
  ∧ (∀ n, n ≠ algo_name algo →
          mappings (add c algo "").1 !! n = mappings c !! n)
  ∧ mappings (add c algo "").1 !! ""
    = if String.eqb (algo_name algo) "" then Some algo else mappings c !! "".
Proof.
  intros Hset. split; [done|].
  rewrite add_unfold by done. rewrite add_key_default. simpl.
  split; [done|]. split; [by rewrite lookup_insert_eq|]. split.
  - intros n Hn. by rewrite lookup_insert_ne.
  - destruct (String.eqb_spec (algo_name algo) "") as [->|Hn].
    + by rewrite lookup_insert_eq.
    + by rewrite lookup_insert_ne.
Qed.

(** [add] never stores a null pointer: a cache that holds none before holds
    none after. *)
Lemma add_stores_no_null c algo index_name :
  (∀ n p, mappings c !! n = Some p → is_set p = true) →
  ∀ n p, mappings (add c algo index_name).1 !! n = Some p → is_set p = true.
Proof.
  intros Hc n p. destruct (is_set algo) eqn:Hset.
  - rewrite add_unfold by done. simpl.
    destruct (decide (add_key algo index_name = n)) as [<-|Hne].
    + rewrite lookup_insert_eq. by intros [= <-].
    + rewrite lookup_insert_ne by done. apply Hc.
  - unfold add. rewrite Hset. simpl. apply Hc.
Qed.

(** ** Lookups through the engine *)

(** C1: on an engine whose cache of kind [k] is there and holds an
    instance under the request's canonical name (an entry is never a null
    pointer, [add_stores_no_null]), each of the four [prototype_*] functions
    returns that instance, leaves the engine as it was, and has only taken
    and released the lock: no provider search is made. *)
Theorem prototype_hit_skips_search (k : prim) (request : SCAN_Name)
    (af : Algorithm_Factory) (s : state) (c : Algorithm_Cache_Impl) (p : ptr) :
  slot k (engine s) = Some c →
  mappings c !! as_string request = Some p →
  is_set p = true →
  let seen := trace s ++ [Lock (mutex c); Unlock (mutex c)] in
  prototype k request af s = Returns p (mkState (engine s) seen)
  ∧ searches seen = searches (trace s).
Proof.
  intros Hc Hp Hset seen. split.
  - rewrite prototype_unfold, Hc. simpl. unfold search_map.
    rewrite Hp, Hset. done.
  - subst seen. rewrite searches_app. simpl. by rewrite app_nil_r.
Qed.

(** C7, as the code has it: no member function checks that the engine was
    initialized.  With the cache slot of kind [k] null, the lookup and the
    registration of that kind start with a member call through the null
    pointer, which is undefined behaviour: nothing is signalled and nothing
    is returned.  A newly constructed engine is in that state for all four
    kinds. *)
Theorem uninitialized_call_is_undefined (k : prim) (s : state) :
  slot k (engine s) = None →
  (∀ request af, prototype k request af s = Undefined)
  ∧ (∀ algo, add_algorithm k algo s = Undefined)
  ∧ (∀ request af, signalled (prototype k request af s) = false)
  ∧ (∀ algo, signalled (add_algorithm k algo s) = false).
Proof.
  intros Hc.
  assert (Hp : ∀ request af, prototype k request af s = Undefined).
  { intros. by rewrite prototype_unfold, Hc. }
  assert (Ha : ∀ algo, add_algorithm k algo s = Undefined).
  { intros. by rewrite add_algorithm_unfold, cache_add_unfold, Hc. }
  repeat split; intros; by rewrite ?Hp, ?Ha.
Qed.

(** C8: a newly constructed engine has its four cache slots null; one call
    of [initialize] calls [make] four times, in the order block cipher,
    stream cipher, hash function, MAC, and leaves four empty caches, the
    cache of each kind holding the mutex its own call of [make] returned. *)
Theorem initialize_builds_four_caches (mf : Mutex_Factory) (t : list event) :
  let r1 := make mf in
  let r2 := make r1.2 in
  let r3 := make r2.2 in
  let r4 := make r3.2 in
  (∀ k, slot k Engine_ctor = None)
  ∧ initialize mf (mkState Engine_ctor t) =
      Returns r4.2
        (mkState
           (mkEngine (Some (mkCache r1.1 ∅)) (Some (mkCache r2.1 ∅))
                     (Some (mkCache r3.1 ∅)) (Some (mkCache r4.1 ∅)))
           (t ++ [Make r1.1; Make r2.1; Make r3.1; Make r4.1]))
  ∧ made (t ++ [Make r1.1; Make r2.1; Make r3.1; Make r4.1])
    = made t ++ [r1.1; r2.1; r3.1; r4.1].
Proof.
  intros r1 r2 r3 r4. split; [by intros []|].
  split; [|by rewrite made_app].
  unfold initialize, new_cache, mbind, M_bind. simpl.
  subst r1 r2 r3 r4.
  destruct (make mf) as [m1 mf1]; simpl.
  destruct (make mf1) as [m2 mf2]; simpl.
  destruct (make mf2) as [m3 mf3]; simpl.
  destruct (make mf3) as [m4 mf4]; simpl.
  by rewrite <- !app_assoc.
Qed.

Lemma is_set_false (p : ptr) : is_set p = false → p = null.
Proof.
  unfold is_set, null. rewrite negb_false_iff, N.eqb_eq. done.
Qed.

(** C2, as the code has it: on an engine whose cache of kind [k] is there
    and has no entry for the request's canonical name, the provider search
    is called once.  When it finds an instance and the canonical name is not
    empty, the instance is stored under the canonical name and returned;
    when the canonical name is empty, [add] takes it for "no name" and
    stores the instance under its own [name()].  When the search finds
    nothing, null is returned and the engine is as it was, so the next
    lookup of that name searches again. *)
Theorem prototype_miss_searches (k : prim) (request : SCAN_Name)
    (af : Algorithm_Factory) (s : state) (c : Algorithm_Cache_Impl) :
  slot k (engine s) = Some c →
  mappings c !! as_string request = None →
  let name := as_string request in
  let algo := find k request af in
  let seen := trace s ++ [Lock (mutex c); Unlock (mutex c); Search k name] in
  (is_set algo = true → name ≠ "" →
     prototype k request af s =
       Returns algo
         (mkState
            (set_slot k (Some (mkCache (mutex c) (<[name := algo]> (mappings c))))
               (engine s))
            (seen ++ [Lock (mutex c); Assign name algo; Unlock (mutex c)])))
  ∧ (is_set algo = true → name = "" →
       prototype k request af s =
         Returns algo
           (mkState
              (set_slot k
                 (Some (mkCache (mutex c)
                          (<[algo_name algo := algo]> (mappings c))))
                 (engine s))
              (seen ++ [Lock (mutex c)] ++ delete_mapped c (algo_name algo)
               ++ [Assign (algo_name algo) algo; Unlock (mutex c)])))
  ∧ (is_set algo = false →
       prototype k request af s = Returns null (mkState (engine s) seen)
       ∧ ∀ request' af', as_string request' = name →
           ∃ r s', prototype k request' af' (mkState (engine s) seen)
                   = Returns r s'
                 ∧ searches (trace s')
                   = searches (trace s) ++ [(k, name); (k, name)]).
Proof.
  intros Hc Hmiss name algo seen.
  assert (Hseen : seen = (trace s ++ [Lock (mutex c); Unlock (mutex c)])
                         ++ [Search k name]).
  { subst seen. by rewrite <- app_assoc. }
  assert (Hpre : ∀ request' af' t, as_string request' = name →
    prototype k request' af' (mkState (engine s) t) =
      let found := find k request' af' in
      let t' := (t ++ [Lock (mutex c); Unlock (mutex c)]) ++ [Search k name] in
      if is_set found
      then Returns found
             (mkState (set_slot k (Some (add c found name).1) (engine s))
                      (t' ++ (add c found name).2))
      else Returns found (mkState (engine s) t')).
  { intros request' af' t Hn. rewrite prototype_unfold. simpl. rewrite Hc.
    simpl. rewrite Hn. unfold search_map. subst name. rewrite Hmiss. done. }
  split; [|split].
  - intros Hset Hne. rewrite <- (state_eta s), Hpre by done. simpl.
    fold algo. rewrite Hset, add_unfold, add_key_given by done.
    unfold delete_mapped. simpl. fold name. subst name. rewrite Hmiss.
    by rewrite Hseen.
  - intros Hset He. rewrite <- (state_eta s), Hpre by done. simpl.
    fold algo. rewrite Hset, He, add_unfold, add_key_default by done.
    simpl. rewrite Hseen. fold name. by rewrite He.
  - intros Hnull. split.
    + rewrite <- (state_eta s), Hpre by done. simpl. fold algo.
      rewrite Hnull, <- Hseen. by rewrite (is_set_false _ Hnull).
    + intros request' af' Hn. rewrite Hpre by done. simpl.
      destruct (is_set (find k request' af')); eexists _, _; (split; [done|]);
        simpl; rewrite ?searches_app, ?searches_add, Hseen, ?searches_app;
        simpl; by rewrite ?app_nil_r, <- ?app_assoc.
Qed.

(** ** Views and replacement *)

Lemma get_holds c name :
  is_set (get c name).1 = true → mappings c !! name = Some (get c name).1.
Proof.
  unfold get, search_map. simpl. by destruct (mappings c !! name).
Qed.

(** C9, as the code has it: a pointer that [get] returned stays valid
    across a later [add] exactly when that [add] does not store under a key
    the pointer is mapped under; an [add] of a non-null instance under the
    name the pointer was looked up with deletes the object it points to. *)
Theorem view_dies_when_superseded (c : Algorithm_Cache_Impl) (name : string)
    (algo : ptr) (index_name : string) :
  let view := (get c name).1 in
  is_set view = true →
  (view_valid view (add c algo index_name).2
   ↔ ¬ (is_set algo = true
        ∧ mappings c !! add_key algo index_name = Some view))
  ∧ (is_set algo = true → add_key algo index_name = name →
     ¬ view_valid view (add c algo index_name).2).
Proof.
  intros view Hview. pose proof (get_holds _ _ Hview) as Hheld. fold view in Hheld.
  unfold view_valid. rewrite deleted_add. split.
  - destruct (is_set algo).
    + destruct (mappings c !! add_key algo index_name) as [old|]; simpl.
      * rewrite list_elem_of_singleton. split.
        -- intros Hne [_ [= ->]]. by apply Hne.
        -- intros Hn ->. by apply Hn.
      * rewrite elem_of_nil. split; [by intros _ [_ ?]|tauto].
    + rewrite elem_of_nil. split; [by intros _ [? _]|tauto].
  - intros -> ->. rewrite Hheld. simpl. rewrite list_elem_of_singleton. tauto.
Qed.

Lemma times_deleted_singleton p (pre post : list event) :
  deleted pre = [] → deleted post = [] →
  times_deleted p (pre ++ Delete p :: post) = 1.
Proof.
  intros Hpre Hpost. unfold times_deleted. rewrite deleted_app. simpl.
  rewrite Hpre, Hpost. simpl. by rewrite filter_cons_True.
Qed.

(** C3, as the code has it: the map has one entry per name, and an [add]
    of a non-null instance under a name that has an entry deletes the
    instance mapped so far once, before the assignment, and adds no name.
    When the cache does not hold the added instance already and holds no
    instance under two names, the deleted instance is under no name
    afterwards, and again no instance is under two names. *)
Theorem add_replaces_and_deletes_once (c : Algorithm_Cache_Impl) (algo : ptr)
    (index_name : string) (old : ptr) :
  is_set algo = true →
  mappings c !! add_key algo index_name = Some old →
  let key := add_key algo index_name in
  let c' := (add c algo index_name).1 in
  let evs := (add c algo index_name).2 in
  evs = [Lock (mutex c); Delete old; Assign key algo; Unlock (mutex c)]
  ∧ mappings c' = <[key := algo]> (mappings c)
  ∧ mappings c' !! key = Some algo
  ∧ (dom (mappings c') : gset string) = dom (mappings c)
  ∧ times_deleted old evs = 1
  ∧ (exclusive (mappings c) → ¬ holds (mappings c) algo →
     none_dangling c' evs ∧ exclusive (mappings c')).
Proof.
  intros Hset Hold key c' evs. subst c' evs.
  rewrite add_unfold by done. fold key. simpl.
  unfold delete_mapped. fold key in Hold. rewrite Hold. simpl.
  split; [done|]. split; [done|]. split; [by rewrite lookup_insert_eq|].
  split; [by apply dom_insert_lookup_L|].
  split; [by apply (times_deleted_singleton old [Lock (mutex c)])|].
  clearbody key. intros Hex Hfresh. split.
  - intros p Hp [n Hn]. simpl in Hp, Hn.
    apply list_elem_of_singleton in Hp as ->.
    destruct (decide (key = n)) as [<-|Hne].
    + rewrite lookup_insert_eq in Hn. injection Hn as ->.
      apply Hfresh. by exists key.
    + rewrite lookup_insert_ne in Hn by done.
      apply Hne. by apply (Hex _ _ old).
  - intros n1 n2 p H1 H2.
    destruct (decide (key = n1)) as [<-|Hne1];
      destruct (decide (key = n2)) as [<-|Hne2]; [done| | |].
    + rewrite lookup_insert_eq in H1. injection H1 as <-.
      rewrite lookup_insert_ne in H2 by done. destruct Hfresh. by exists n2.
    + rewrite lookup_insert_eq in H2. injection H2 as <-.
      rewrite lookup_insert_ne in H1 by done. destruct Hfresh. by exists n1.
    + rewrite lookup_insert_ne in H1, H2 by done. by apply (Hex _ _ p).
Qed.

(** ** What a map holds *)

Lemma instances_Permutation (m : gmap string ptr) :
  instances m ≡ₚ (map_to_list m).*2.
Proof.
  unfold instances, in_key_order. by rewrite merge_sort_Permutation.
Qed.

Lemma instances_empty : instances ∅ = [].
Proof.
  unfold instances, in_key_order. by rewrite map_to_list_empty.
Qed.

Lemma elem_of_instances (m : gmap string ptr) (p : ptr) :
  p ∈ instances m ↔ holds m p.
Proof.
  rewrite instances_Permutation, list_elem_of_fmap. unfold holds. split.
  - intros [[n q] [-> Hin]]. exists n. by apply elem_of_map_to_list.
  - intros [n Hn]. exists (n, p). split; [done|].
    by apply elem_of_map_to_list.
Qed.

Lemma NoDup_instances (m : gmap string ptr) :
  exclusive m → NoDup (instances m).
Proof.
  intros Hex. rewrite instances_Permutation.
  apply NoDup_fmap_2_strong; [|apply NoDup_map_to_list].
  intros [n1 p1] [n2 p2] H1%elem_of_map_to_list H2%elem_of_map_to_list.
  simpl. intros <-. f_equal. by apply (Hex _ _ p1).
Qed.

Lemma instances_insert_fresh (m : gmap string ptr) (n : string) (p : ptr) :
  m !! n = None → instances (<[n := p]> m) ≡ₚ p :: instances m.
Proof.
  intros Hn. rewrite !instances_Permutation, map_to_list_insert by done.
  done.
Qed.

Lemma instances_insert_over (m : gmap string ptr) (n : string) (p old : ptr) :
  m !! n = Some old → old :: instances (<[n := p]> m) ≡ₚ p :: instances m.
Proof.
  intros Hn.
  rewrite <- (insert_delete_eq m n p).
  rewrite <- (insert_id m n old Hn) at 2.
  rewrite <- (insert_delete_eq m n old).
  rewrite !instances_insert_fresh by apply lookup_delete_eq.
  apply perm_swap.
Qed.

(** What [add] deletes together with what the cache then holds is what it
    held before together with the new instance. *)
Lemma add_moves_ownership c algo index_name :
  is_set algo = true →
  deleted (add c algo index_name).2
  ++ instances (mappings (add c algo index_name).1)
  ≡ₚ algo :: instances (mappings c).
Proof.
  intros Hset. rewrite deleted_add, Hset, add_unfold by done. simpl.
  destruct (mappings c !! add_key algo index_name) as [old|] eqn:Hold; simpl.
  - by apply instances_insert_over.
  - by apply instances_insert_fresh.
Qed.

Lemma assigned_add c algo index_name :
  assigned (add c algo index_name).2 = if is_set algo then [algo] else [].
Proof.
  unfold add, Mutex_Holder, delete_mapped.
  destruct (is_set algo); [|done]. simpl.
  by destruct (mappings c !! _).
Qed.

Lemma owned_set_slot k c e :
  slot k e = Some c →
  ∃ rest, owned e ≡ₚ instances (mappings c) ++ rest
        ∧ ∀ c', owned (set_slot k (Some c') e)
                ≡ₚ instances (mappings c') ++ rest.
Proof.
  intros Hc. destruct e as [bc sc hf mac]. unfold owned.
  destruct k; simpl in Hc |- *; subst.
  - exists (held sc ++ held hf ++ held mac). by split.
  - exists (held bc ++ held hf ++ held mac). simpl.
    split; [|intros c']; solve_Permutation.
  - exists (held bc ++ held sc ++ held mac). simpl.
    split; [|intros c']; solve_Permutation.
  - exists (held bc ++ held sc ++ held hf). simpl.
    split; [|intros c']; solve_Permutation.
Qed.

Lemma times_deleted_once p t :
  NoDup (deleted t) → p ∈ deleted t → times_deleted p t = 1.
Proof.
  unfold times_deleted. induction (deleted t) as [|q l IH]; intros Hnd Hin.
  - by apply elem_of_nil in Hin.
  - apply NoDup_cons in Hnd as [Hq Hnd].
    destruct (decide (q = p)) as [->|Hne].
    + rewrite filter_cons_True by done. simpl. f_equal.
      clear IH Hin Hnd. induction l as [|r l IH]; [done|].
      apply not_elem_of_cons in Hq as [Hr Hq].
      rewrite filter_cons_False by done. by apply IH.
    + rewrite filter_cons_False by done. apply IH; [done|].
      apply elem_of_cons in Hin as [->|?]; done.
Qed.

(** ** The ownership invariant *)

Lemma sound_same_engine s t' :
  sound s →
  deleted t' = deleted (trace s) →
  assigned t' = assigned (trace s) →
  sound (mkState (engine s) t').
Proof.
  intros (Hinit & Hnd & Hass) Hd Ha. unfold sound. simpl.
  by rewrite Hd, Ha.
Qed.

Lemma sound_after_add s k c algo index_name t' :
  sound s →
  slot k (engine s) = Some c →
  is_set algo = true →
  handed_over algo s →
  deleted t' = deleted (trace s) ++ deleted (add c algo index_name).2 →
  assigned t' = assigned (trace s) ++ [algo] →
  sound (mkState (set_slot k (Some (add c algo index_name).1) (engine s)) t').
Proof.
  intros (Hinit & Hnd & Hass) Hc Hset Hfresh Hd Ha.
  destruct (Hfresh Hset) as [Hno Hnd'].
  destruct (owned_set_slot _ _ _ Hc) as (rest & Hbefore & Hafter).
  assert (Hperm : deleted t'
                  ++ owned (set_slot k (Some (add c algo index_name).1) (engine s))
                  ≡ₚ algo :: (deleted (trace s) ++ owned (engine s))).
  { rewrite Hd, Hafter, Hbefore, <- app_assoc.
    rewrite (app_assoc (deleted (add c algo index_name).2)).
    rewrite add_moves_ownership by done. simpl.
    symmetry. apply Permutation_middle. }
  unfold sound. simpl. split; [|split].
  - intros k'. destruct (decide (k = k')) as [->|Hne].
    + rewrite slot_set_slot_eq. by eexists.
    + rewrite slot_set_slot_ne by done. apply Hinit.
  - rewrite Hperm. apply NoDup_cons. split; [|done].
    rewrite elem_of_app. tauto.
  - intros p. rewrite Hperm, Ha, elem_of_app, list_elem_of_singleton, elem_of_cons.
    intros [Hp | ->]; [right; by apply Hass | by left].
Qed.

Lemma cache_add_sound k algo index_name s :
  sound s → handed_over algo s →
  ∃ s', cache_add k algo index_name s = Returns tt s' ∧ sound s'.
Proof.
  intros Hs Hfresh. rewrite cache_add_unfold.
  destruct (proj1 Hs k) as [c Hc]. rewrite Hc. eexists. split; [done|].
  destruct (is_set algo) eqn:Hset.
  - apply sound_after_add; try done.
    + by rewrite deleted_app.
    + by rewrite assigned_app, assigned_add, Hset.
  - unfold add. rewrite Hset. simpl.
    rewrite (set_slot_id _ _ _ Hc), app_nil_r, state_eta. done.
Qed.

Lemma prototype_sound k request af s :
  sound s → handed_over (incoming (Acquire k request af) s) s →
  ∃ r s', prototype k request af s = Returns r s' ∧ sound s'.
Proof.
  intros Hs Hfresh. rewrite prototype_unfold.
  destruct (proj1 Hs k) as [c Hc]. simpl in Hfresh. rewrite Hc in Hfresh |- *.
  simpl.
  destruct (is_set (search_map _ _)).
  - eexists _, _. split; [done|].
    apply sound_same_engine; [done|..]; by trace_simpl.
  - destruct (is_set (find k request af)) eqn:Hset.
    + eexists _, _. split; [done|]. apply sound_after_add; try done.
      * by trace_simpl.
      * trace_simpl. by rewrite assigned_add, Hset.
    + eexists _, _. split; [done|].
      apply sound_same_engine; [done|..]; by trace_simpl.
Qed.

Lemma perform_sound c s :
  sound s → handed_over (incoming c s) s →
  ∃ s', perform c s = Returns tt s' ∧ sound s'.
Proof.
  intros Hs Hfresh. destruct c as [k algo|k request af]; simpl.
  - rewrite add_algorithm_unfold. by apply cache_add_sound.
  - destruct (prototype_sound k request af s Hs Hfresh) as (r & s' & Hr & Hs').
    exists s'. unfold mbind, M_bind. by rewrite Hr.
Qed.

Lemma perform_all_sound cs s :
  sound s → disciplined cs s →
  ∃ s', perform_all cs s = Returns tt s' ∧ sound s'.
Proof.
  revert s. induction cs as [|c cs IH]; intros s Hs Hd.
  - by exists s.
  - destruct Hd as [Hfresh Hd].
    destruct (perform_sound c s Hs Hfresh) as (s1 & Hr & Hs1).
    rewrite Hr in Hd. destruct (IH s1 Hs1 Hd) as (s' & Hr' & Hs').
    exists s'. simpl. unfold mbind, M_bind. by rewrite Hr.
Qed.

Lemma deleted_dtor c :
  deleted (Algorithm_Cache_Impl_dtor c) = instances (mappings c).
Proof.
  unfold Algorithm_Cache_Impl_dtor. rewrite deleted_app, deleted_map_Delete.
  simpl. by rewrite app_nil_r.
Qed.

Lemma deleted_delete_cache c : deleted (delete_cache c) = held c.
Proof. destruct c; [apply deleted_dtor|done]. Qed.

Lemma assigned_delete_cache c : assigned (delete_cache c) = [].
Proof.
  destruct c as [c|]; [|done]. unfold delete_cache, Algorithm_Cache_Impl_dtor.
  rewrite assigned_app. simpl. rewrite app_nil_r.
  induction (instances (mappings c)); by simpl.
Qed.

Lemma deleted_Engine_dtor s :
  deleted (Engine_dtor s) = deleted (trace s) ++ owned (engine s).
Proof.
  unfold Engine_dtor, owned. by rewrite !deleted_app, !deleted_delete_cache.
Qed.

Lemma assigned_Engine_dtor s : assigned (Engine_dtor s) = assigned (trace s).
Proof.
  unfold Engine_dtor. rewrite !assigned_app, !assigned_delete_cache.
  by rewrite !app_nil_r.
Qed.

Lemma initialize_sound mf mf' s :
  initialize mf (mkState Engine_ctor []) = Returns mf' s → sound s.
Proof.
  unfold initialize, new_cache, mbind, M_bind. simpl.
  destruct (make mf) as [m1 mf1]; simpl.
  destruct (make mf1) as [m2 mf2]; simpl.
  destruct (make mf2) as [m3 mf3]; simpl.
  destruct (make mf3) as [m4 mf4]; simpl.
  intros [= _ <-]. unfold sound, owned. simpl.
  rewrite !instances_empty. simpl. split; [|split].
  - intros []; by eexists.
  - constructor.
  - intros p Hp. by apply elem_of_nil in Hp.
Qed.

(** ** Teardown *)

Lemma delete_cache_in_Engine_dtor k c s :
  slot k (engine s) = Some c →
  ∃ before after,
    Engine_dtor s = before ++ Algorithm_Cache_Impl_dtor c ++ after.
Proof.
  intros Hc. unfold Engine_dtor.
  destruct k; simpl in Hc; rewrite Hc; simpl.
  - by exists (trace s), (delete_cache (cache_of_sc (engine s))
        ++ delete_cache (cache_of_hf (engine s))
        ++ delete_cache (cache_of_mac (engine s))).
  - exists (trace s ++ delete_cache (cache_of_bc (engine s))),
           (delete_cache (cache_of_hf (engine s))
            ++ delete_cache (cache_of_mac (engine s))).
    by rewrite <- !app_assoc.
  - exists (trace s ++ delete_cache (cache_of_bc (engine s))
            ++ delete_cache (cache_of_sc (engine s))),
           (delete_cache (cache_of_mac (engine s))).
    by rewrite <- !app_assoc.
  - exists (trace s ++ delete_cache (cache_of_bc (engine s))
            ++ delete_cache (cache_of_sc (engine s))
            ++ delete_cache (cache_of_hf (engine s))), [].
    by rewrite app_nil_r, <- !app_assoc.
Qed.

(** C4, as the code has it.  The destructor of a cache deletes one object
    per entry of its map and then its mutex; what it deletes is what the map
    holds, each instance once when no instance is under two names.  The
    destructor of an engine runs the destructor of every cache that is
    there and skips the null slots.  Over a lifetime (construct, initialize,
    any registrations and lookups, destroy) in which every pointer handed to
    a cache is one that no cache holds and nobody has deleted, no object is
    deleted twice, and every object that was ever put into a cache is
    deleted once. *)
Theorem teardown_deletes_each_instance_once :
  (∀ c : Algorithm_Cache_Impl,
     Algorithm_Cache_Impl_dtor c
       = map Delete (instances (mappings c)) ++ [DeleteMutex (mutex c)]
     ∧ (∀ p, p ∈ deleted (Algorithm_Cache_Impl_dtor c) ↔ holds (mappings c) p)
     ∧ (exclusive (mappings c) →
        ∀ p, holds (mappings c) p →
             times_deleted p (Algorithm_Cache_Impl_dtor c) = 1))
  ∧ (∀ s : state,
       (∀ k c, slot k (engine s) = Some c →
          ∃ before after,
            Engine_dtor s = before ++ Algorithm_Cache_Impl_dtor c ++ after)
       ∧ ((∀ k, slot k (engine s) = None) → Engine_dtor s = trace s)
       ∧ deleted (Engine_dtor s) = deleted (trace s) ++ owned (engine s))
  ∧ (∀ (mf mf' : Mutex_Factory) (cs : list call) (s0 : state),
       initialize mf (mkState Engine_ctor []) = Returns mf' s0 →
       disciplined cs s0 →
       ∃ t, lifetime mf cs = Some t
          ∧ NoDup (deleted t)
          ∧ ∀ p, p ∈ assigned t → times_deleted p t = 1).
Proof.
  split; [|split].
  - intros c. split; [done|]. split.
    + intros p. by rewrite deleted_dtor, elem_of_instances.
    + intros Hex p Hp. apply times_deleted_once.
      * rewrite deleted_dtor. by apply NoDup_instances.
      * by rewrite deleted_dtor, elem_of_instances.
  - intros s. split; [|split].
    + intros k c. apply delete_cache_in_Engine_dtor.
    + intros Hnone. unfold Engine_dtor.
      rewrite (Hnone BlockCipher : cache_of_bc _ = None).
      rewrite (Hnone StreamCipher : cache_of_sc _ = None).
      rewrite (Hnone HashFunction : cache_of_hf _ = None).
      rewrite (Hnone MessageAuthenticationCode : cache_of_mac _ = None).
      simpl. by rewrite app_nil_r.
    + apply deleted_Engine_dtor.
  - intros mf mf' cs s0 Hinit Hd.
    pose proof (initialize_sound _ _ _ Hinit) as Hs0.
    destruct (perform_all_sound cs s0 Hs0 Hd) as (s' & Hrun & Hs').
    exists (Engine_dtor s'). unfold lifetime, mbind, M_bind.
    rewrite Hinit, Hrun. split; [done|].
    destruct Hs' as (_ & Hnd & Hass).
    rewrite <- deleted_Engine_dtor in Hnd, Hass. split; [done|].
    intros p Hp. rewrite assigned_Engine_dtor in Hp.
    apply times_deleted_once; [done|]. by apply Hass.
Qed.

(** ** Calls as steps *)

Lemma mutexes_deleted_app (t u : list event) :
  mutexes_deleted (t ++ u) = mutexes_deleted t ++ mutexes_deleted u.
Proof. induction t as [|[] t IH]; simpl; by rewrite ?IH. Qed.

#[local] Hint Rewrite mutexes_deleted_app : trace.


Lemma add_events c algo index_name :
  is_set algo = true →
  (add c algo index_name).2 =
  [Lock (mutex c)] ++ delete_mapped c (add_key algo index_name)
  ++ [Assign (add_key algo index_name) algo; Unlock (mutex c)].
Proof. intros Hset. by rewrite add_unfold. Qed.

Lemma add_mappings c algo index_name :
  is_set algo = true →
  mappings (add c algo index_name).1
  = <[add_key algo index_name := algo]> (mappings c).
Proof. intros Hset. by rewrite add_unfold. Qed.

(** Every call on an initialized engine returns, and is one step. *)
Lemma perform_step c s :
  initialized s → ∃ s', perform c s = Returns tt s' ∧ step s s'.
Proof.
  intros Hinit. destruct c as [k algo|k request af]; simpl.
  - destruct (Hinit k) as [c Hc].
    rewrite add_algorithm_unfold, cache_add_unfold, Hc.
    eexists. split; [done|]. destruct (is_set algo) eqn:Hset.
    + by apply (step_add s k c algo default_index_name []); [..|constructor].
    + unfold add. rewrite Hset. simpl. rewrite (set_slot_id _ _ _ Hc).
      apply (step_quiet s k c []); [done|constructor].
  - destruct (Hinit k) as [c Hc]. unfold mbind, M_bind.
    rewrite prototype_unfold, Hc. simpl.
    destruct (is_set (search_map _ _)).
    + eexists. split; [done|].
      apply (step_quiet s k c); [done|constructor].
    + destruct (is_set (find k request af)) eqn:Hset.
      * eexists. split; [done|]. rewrite <- !app_assoc. simpl.
        by apply (step_add s k c _ _ [Lock (mutex c); Unlock (mutex c);
                                      Search k (as_string request)]);
          [..|constructor].
      * eexists. split; [done|]. rewrite <- !app_assoc. simpl.
        apply (step_quiet s k c); [done|constructor].
Qed.

Lemma step_initialized s s' : step s s' → initialized s → initialized s'.
Proof.
  intros [s0 k c evs Hc Hq|s0 k c algo index_name pre Hc Hset Hpre] Hinit;
    [done|].
  intros k'. simpl. destruct (decide (k = k')) as [->|Hne].
  - rewrite slot_set_slot_eq. by eexists.
  - rewrite slot_set_slot_ne by done. apply Hinit.
Qed.

Lemma perform_all_steps cs s :
  initialized s →
  ∃ s', perform_all cs s = Returns tt s' ∧ rtc step s s' ∧ initialized s'.
Proof.
  revert s. induction cs as [|c cs IH]; intros s Hinit.
  - exists s. by split.
  - destruct (perform_step c s Hinit) as (s1 & Hr & Hstep).
    destruct (IH s1 (step_initialized _ _ Hstep Hinit)) as (s' & Hr' & Hrtc & Hi).
    exists s'. simpl. unfold mbind, M_bind. rewrite Hr.
    split; [done|]. split; [|done]. by eapply rtc_l.
Qed.

Lemma perform_all_steps_of cs s s' :
  initialized s → perform_all cs s = Returns tt s' →
  rtc step s s' ∧ initialized s'.
Proof.
  intros Hinit Hr. destruct (perform_all_steps cs s Hinit) as (s2 & Hr2 & H).
  rewrite Hr in Hr2. by injection Hr2 as <-.
Qed.

Lemma initialize_unfold mf s :
  initialize mf s =
  Returns (make (make (make (make mf).2).2).2).2
    (mkState
       (mkEngine (Some (mkCache (make mf).1 ∅))
                 (Some (mkCache (make (make mf).2).1 ∅))
                 (Some (mkCache (make (make (make mf).2).2).1 ∅))
                 (Some (mkCache (make (make (make (make mf).2).2).2).1 ∅)))
       (trace s ++ [Make (make mf).1; Make (make (make mf).2).1;
                    Make (make (make (make mf).2).2).1;
                    Make (make (make (make (make mf).2).2).2).1])).
Proof.
  unfold initialize, new_cache, mbind, M_bind. simpl.
  destruct (make mf) as [m1 mf1]; simpl.
  destruct (make mf1) as [m2 mf2]; simpl.
  destruct (make mf2) as [m3 mf3]; simpl.
  destruct (make mf3) as [m4 mf4]; simpl.
  by rewrite <- !app_assoc.
Qed.

Lemma initialize_initialized mf s mf' s' :
  initialize mf s = Returns mf' s' → initialized s'.
Proof.
  rewrite initialize_unfold. intros [= _ <-]. intros []; by eexists.
Qed.

(** ** Storing and looking up *)

(** X1: what [add] stores, [get] finds: after an [add] of a non-null
    instance, [get] under the key [add] chose returns that instance, and
    [get] under every other name returns what it returned before. *)
Theorem add_then_get (c : Algorithm_Cache_Impl) (algo : ptr)
    (index_name : string) :
  is_set algo = true →
  (get (add c algo index_name).1 (add_key algo index_name)).1 = algo
  ∧ ∀ n, n ≠ add_key algo index_name →
         (get (add c algo index_name).1 n).1 = (get c n).1.
Proof.
  intros Hset. unfold get, search_map. simpl. rewrite add_mappings by done.
  split.
  - by rewrite lookup_insert_eq.
  - intros n Hn. by rewrite lookup_insert_ne.
Qed.

(** X2: the last writer wins: two [add]s of non-null instances under one
    key leave the map as the second [add] alone would, the second [add]
    deletes exactly the instance the first one stored, and [get] returns
    the second instance. *)
Theorem add_twice_keeps_the_last (c : Algorithm_Cache_Impl) (a b : ptr)
    (ia ib : string) :
  is_set a = true → is_set b = true →
  add_key a ia = add_key b ib →
  mappings (add (add c a ia).1 b ib).1 = mappings (add c b ib).1
  ∧ deleted (add (add c a ia).1 b ib).2 = [a]
  ∧ (get (add (add c a ia).1 b ib).1 (add_key b ib)).1 = b.
Proof.
  intros Ha Hb Hkey. split; [|split].
  - rewrite !add_mappings, Hkey by done. apply insert_insert_eq.
  - rewrite deleted_add, Hb, add_mappings, Hkey by done.
    by rewrite lookup_insert_eq.
  - unfold get, search_map. simpl. rewrite add_mappings by done.
    by rewrite lookup_insert_eq.
Qed.

(** X3: a miss that finds an instance makes the next lookup a hit: when
    the cache has no entry for a non-empty canonical name and the search
    returns an instance, a second lookup of the same canonical name returns
    that instance, leaves the engine as the first lookup left it, and the
    two lookups together have searched once. *)
Theorem prototype_miss_then_hit (k : prim) (request request' : SCAN_Name)
    (af af' : Algorithm_Factory) (s : state) (c : Algorithm_Cache_Impl) :
  slot k (engine s) = Some c →
  mappings c !! as_string request = None →
  is_set (find k request af) = true →
  as_string request ≠ "" →
  as_string request' = as_string request →
  ∃ s1 s2,
    prototype k request af s = Returns (find k request af) s1
    ∧ prototype k request' af' s1 = Returns (find k request af) s2
    ∧ engine s2 = engine s1
    ∧ searches (trace s2) = searches (trace s) ++ [(k, as_string request)].
Proof.
  intros Hc Hmiss Hset Hne Hsame.
  rewrite prototype_unfold, Hc. simpl. unfold search_map at 1.
  rewrite Hmiss. simpl. rewrite Hset. eexists _, _. split; [done|].
  rewrite prototype_unfold. simpl. rewrite slot_set_slot_eq, Hsame.
  unfold search_map. rewrite add_mappings, add_key_given by done.
  rewrite lookup_insert_eq, Hset. split; [done|]. split; [done|].
  simpl. trace_simpl. by rewrite searches_add, app_nil_r.
Qed.

(** X4: a registered instance is found without a search: after
    [add_algorithm] of a non-null instance, a lookup whose canonical name is
    the instance's own [name()] returns that instance and makes no search. *)
Theorem register_then_acquire (k : prim) (algo : ptr) (request : SCAN_Name)
    (af : Algorithm_Factory) (s : state) (c : Algorithm_Cache_Impl) :
  slot k (engine s) = Some c →
  is_set algo = true →
  as_string request = algo_name algo →
  ∃ s1 s2,
    add_algorithm k algo s = Returns tt s1
    ∧ prototype k request af s1 = Returns algo s2
    ∧ engine s2 = engine s1
    ∧ searches (trace s2) = searches (trace s).
Proof.
  intros Hc Hset Hname.
  rewrite add_algorithm_unfold, cache_add_unfold, Hc.
  eexists _, _. split; [done|].
  rewrite prototype_unfold. simpl. rewrite slot_set_slot_eq, Hname.
  unfold search_map, default_index_name.
  rewrite add_mappings, add_key_default by done.
  rewrite lookup_insert_eq, Hset. split; [done|]. split; [done|].
  simpl. trace_simpl. by rewrite searches_add, app_nil_r.
Qed.

(** X5: the four caches are independent: a lookup or a registration of
    kind [k] leaves the cache of every other kind as it was. *)
Theorem other_kinds_untouched (k k' : prim) (s : state) :
  k ≠ k' →
  (∀ request af r s', prototype k request af s = Returns r s' →
                      slot k' (engine s') = slot k' (engine s))
  ∧ (∀ algo s', add_algorithm k algo s = Returns tt s' →
                slot k' (engine s') = slot k' (engine s)).
Proof.
  intros Hne. split.
  - intros request af r s'. rewrite prototype_unfold.
    destruct (slot k (engine s)) as [c|]; [|done]. simpl.
    destruct (is_set (search_map _ _)); [by intros [= _ <-]|].
    destruct (is_set (find k request af)); intros [= _ <-]; [|done].
    simpl. by rewrite slot_set_slot_ne.
  - intros algo s'. rewrite add_algorithm_unfold, cache_add_unfold.
    destruct (slot k (engine s)) as [c|]; [|done]. intros [= <-].
    simpl. by rewrite slot_set_slot_ne.
Qed.

(** X6: what a lookup returns is what the cache holds: when a lookup
    returns a non-null pointer, the cache of that kind holds it afterwards
    (the caller gets a view, not ownership); when it returns null, the
    engine is as it was. *)
Theorem returned_instance_is_held (k : prim) (request : SCAN_Name)
    (af : Algorithm_Factory) (s s' : state) (r : ptr) :
  prototype k request af s = Returns r s' →
  (is_set r = true →
   ∃ c', slot k (engine s') = Some c' ∧ holds (mappings c') r)
  ∧ (is_set r = false → r = null ∧ engine s' = engine s).
Proof.
  rewrite prototype_unfold.
  destruct (slot k (engine s)) as [c|] eqn:Hc; [|done]. simpl.
  destruct (is_set (search_map _ _)) eqn:Hhit.
  - intros [= <- <-]. split; [|by rewrite Hhit].
    intros _. exists c. split; [done|]. exists (as_string request).
    revert Hhit. unfold search_map.
    by destruct (mappings c !! as_string request).
  - destruct (is_set (find k request af)) eqn:Hset; intros [= <- <-].
    + split; [|by rewrite Hset]. intros _. simpl.
      rewrite slot_set_slot_eq. eexists. split; [done|].
      exists (add_key (find k request af) (as_string request)).
      rewrite add_mappings by done. apply lookup_insert_eq.
    + split; [by rewrite Hset|]. intros _. split; [|done].
      by apply is_set_false.
Qed.

(** ** What every run of an initialized engine keeps *)

Lemma steps_preserve (P : state → Prop) :
  (∀ s s', step s s' → P s → P s') →
  ∀ s s', rtc step s s' → P s → P s'.
Proof.
  intros Hstep s s' Hrtc. induction Hrtc as [|s s1 s' H1 _ IH]; [done|].
  intros HP. apply IH. by apply (Hstep s).
Qed.



Lemma step_cached k n s s' :
  step s s' →
  is_set (cached_under k n s) = true → is_set (cached_under k n s') = true.
Proof.
  intros [s0 k0 c0 evs Hc0 Hq|s0 k0 c0 algo index_name pre Hc0 Hset Hpre];
    [done|].
  unfold cached_under. simpl. destruct (decide (k0 = k)) as [->|Hne].
  - rewrite slot_set_slot_eq, Hc0. unfold search_map.
    rewrite add_mappings by done.
    destruct (decide (add_key algo index_name = n)) as [->|Hn].
    + by rewrite lookup_insert_eq.
    + by rewrite lookup_insert_ne.
  - by rewrite slot_set_slot_ne.
Qed.

(** X8: nothing is ever evicted: once a cache of an initialized engine has
    a non-null entry for a name, it has one for that name after any further
    registrations and lookups. *)
Theorem cached_names_stay_cached (cs : list call) (s s' : state) (k : prim)
    (n : string) :
  initialized s →
  perform_all cs s = Returns tt s' →
  is_set (cached_under k n s) = true →
  is_set (cached_under k n s') = true.
Proof.
  intros Hinit Hr.
  destruct (perform_all_steps_of cs s s' Hinit Hr) as [Hrtc _].
  apply (steps_preserve (λ s, is_set (cached_under k n s) = true)
           (step_cached k n) s s' Hrtc).
Qed.

Lemma step_no_null_entry s s' :
  step s s' → no_null_entry s → no_null_entry s'.
Proof.
  intros [s0 k0 c0 evs Hc0 Hq|s0 k0 c0 algo index_name pre Hc0 Hset Hpre] Hs;
    [done|].
  intros k c n p. simpl. destruct (decide (k0 = k)) as [->|Hne].
  - rewrite slot_set_slot_eq. intros [= <-].
    apply add_stores_no_null. intros n' p'. by apply (Hs k).
  - rewrite slot_set_slot_ne by done. apply Hs.
Qed.

(** X9: no cache ever maps a name to the null pointer: after [initialize]
    (on any engine) and any registrations and lookups, every entry of every
    cache is a non-null pointer, so [get] returns null exactly for the names
    that have no entry. *)
Theorem entries_are_never_null (mf mf' : Mutex_Factory) (cs : list call)
    (s_before s0 s : state) :
  initialize mf s_before = Returns mf' s0 →
  perform_all cs s0 = Returns tt s →
  no_null_entry s
  ∧ ∀ k c n, slot k (engine s) = Some c →
             ((get c n).1 = null ↔ mappings c !! n = None).
Proof.
  intros Hinit Hr.
  pose proof (initialize_initialized _ _ _ _ Hinit) as Hi0.
  destruct (perform_all_steps_of cs s0 s Hi0 Hr) as [Hrtc _].
  assert (Hnn : no_null_entry s).
  { apply (steps_preserve no_null_entry step_no_null_entry s0 s Hrtc).
    revert Hinit. rewrite initialize_unfold. intros [= _ <-].
    intros [] c n p [= <-]; simpl; by rewrite lookup_empty. }
  split; [done|]. intros k c n Hc. unfold get, search_map. simpl.
  destruct (mappings c !! n) as [p|] eqn:Hp; [|done].
  split; [|done]. intros ->. by pose proof (Hnn k c n _ Hc Hp).
Qed.

(** ** Locks, searches, deletions *)

Lemma locking_app (held held' : option ptr) (t u : list event) :
  locking held t = Some held' → locking held (t ++ u) = locking held' u.
Proof.
  revert held. induction t as [|e t IH]; intros held; simpl.
  - by intros [= ->].
  - destruct e, held as [m'|]; try done; try apply IH.
    destruct (N.eqb m m'); [apply IH|done].
Qed.

Lemma locking_add c algo index_name :
  locking None (add c algo index_name).2 = Some None.
Proof.
  destruct (is_set algo) eqn:Hset.
  - rewrite add_events by done. unfold delete_mapped.
    destruct (mappings c !! _); simpl; by rewrite N.eqb_refl.
  - unfold add. by rewrite Hset.
Qed.

Lemma no_mutex_event_add c algo index_name :
  made (add c algo index_name).2 = []
  ∧ mutexes_deleted (add c algo index_name).2 = [].
Proof.
  unfold add, Mutex_Holder, delete_mapped.
  destruct (negb (is_set algo)); [done|]. simpl.
  by destruct (mappings c !! _).
Qed.

Lemma step_emits s s' :
  step s s' →
  ∃ evs, trace s' = trace s ++ evs
       ∧ locking None evs = Some None
       ∧ made evs = [] ∧ mutexes_deleted evs = [].
Proof.
  intros [s0 k0 c0 evs Hc0 Hq|s0 k0 c0 algo index_name pre Hc0 Hset Hpre].
  - exists evs. split; [done|].
    destruct Hq; simpl; by rewrite ?N.eqb_refl.
  - eexists. split; [done|].
    destruct (no_mutex_event_add c0 algo index_name) as [Hm Hd].
    destruct Hpre; simpl; rewrite ?N.eqb_refl; trace_simpl;
      by rewrite ?locking_add, ?Hm, ?Hd.
Qed.

Lemma steps_emit s s' :
  rtc step s s' →
  ∃ evs, trace s' = trace s ++ evs
       ∧ locking None evs = Some None
       ∧ made evs = [] ∧ mutexes_deleted evs = [].
Proof.
  intros Hrtc. induction Hrtc as [s|s s1 s' H1 _ IH].
  - exists []. by rewrite app_nil_r.
  - destruct (step_emits _ _ H1) as (e1 & Ht1 & Hl1 & Hm1 & Hd1).
    destruct IH as (e2 & Ht2 & Hl2 & Hm2 & Hd2).
    exists (e1 ++ e2). rewrite Ht2, Ht1, <- app_assoc. split; [done|].
    rewrite (locking_app _ _ _ _ Hl1). trace_simpl.
    by rewrite Hm1, Hd1, Hm2, Hd2.
Qed.

(** X10: the lock discipline of the calls: over any registrations and
    lookups on an initialized engine, a lock is taken only when none is
    held and is released by the end of the call, the map is assigned and
    an instance deleted only with the lock held, and the provider search
    runs with no lock held. *)
Theorem calls_keep_lock_discipline (cs : list call) (s s' : state) :
  initialized s →
  perform_all cs s = Returns tt s' →
  ∃ evs, trace s' = trace s ++ evs ∧ locking None evs = Some None.
Proof.
  intros Hinit Hr.
  destruct (perform_all_steps_of cs s s' Hinit Hr) as [Hrtc _].
  destruct (steps_emit _ _ Hrtc) as (evs & Ht & Hl & _).
  by exists evs.
Qed.

Lemma perform_searches c s s' :
  perform c s = Returns tt s' →
  ∃ found, searches (trace s') = searches (trace s) ++ found
         ∧ (found = []
            ∨ ∃ k request af, c = Acquire k request af
                              ∧ found = [(k, as_string request)]).
Proof.
  destruct c as [k algo|k request af]; simpl.
  - rewrite add_algorithm_unfold, cache_add_unfold.
    destruct (slot k (engine s)) as [c|]; [|done]. intros [= <-].
    exists []. simpl. trace_simpl. rewrite searches_add, app_nil_r. auto.
  - unfold mbind, M_bind. rewrite prototype_unfold.
    destruct (slot k (engine s)) as [c|]; [|done]. simpl.
    destruct (is_set (search_map _ _)).
    + intros [= <-]. exists []. simpl. trace_simpl. auto.
    + destruct (is_set (find k request af)); intros [= <-];
        exists [(k, as_string request)]; simpl; trace_simpl;
        rewrite ?searches_add, ?app_nil_r;
        (split; [done|]); right; by exists k, request, af.
Qed.

(** X11: the engine searches only when asked and once per lookup at most:
    over any calls, the searches made are at most as many as the lookups,
    and each is a search of the kind and for the canonical name of one of
    the lookups; registrations never search. *)
Theorem searches_come_from_lookups (cs : list call) (s s' : state) :
  perform_all cs s = Returns tt s' →
  ∃ found, searches (trace s') = searches (trace s) ++ found
         ∧ (length found ≤ acquisitions cs)%nat
         ∧ ∀ k n, (k, n) ∈ found →
                  ∃ request af, Acquire k request af ∈ cs
                                ∧ as_string request = n.
Proof.
  revert s. induction cs as [|c cs IH]; intros s; simpl.
  - intros [= <-]. exists []. rewrite app_nil_r. split; [done|].
    split; [done|]. intros k n Hin. by apply elem_of_nil in Hin.
  - unfold mbind, M_bind. destruct (perform c s) as [[] s1| |] eqn:H1;
      [|done..]. intros Hrest.
    destruct (perform_searches _ _ _ H1) as (f1 & Hs1 & Hf1).
    destruct (IH _ Hrest) as (f2 & Hs2 & Hlen & Hfrom).
    exists (f1 ++ f2). rewrite Hs2, Hs1, <- app_assoc. split; [done|].
    destruct Hf1 as [->|(k & request & af & -> & ->)]; simpl.
    + split; [destruct c; lia|]. intros k n Hin.
      destruct (Hfrom k n Hin) as (request & af & Hc & Hn).
      exists request, af. split; [by apply list_elem_of_further|done].
    + split; [lia|]. intros k' n Hin.
      apply elem_of_cons in Hin as [[= -> ->]|Hin].
      * exists request, af. split; [apply list_elem_of_here|done].
      * destruct (Hfrom k' n Hin) as (request' & af' & Hc & Hn).
        exists request', af'. split; [by apply list_elem_of_further|done].
Qed.





Lemma mutex_events_dtor c :
  made (Algorithm_Cache_Impl_dtor c) = []
  ∧ mutexes_deleted (Algorithm_Cache_Impl_dtor c) = [mutex c].
Proof.
  unfold Algorithm_Cache_Impl_dtor. trace_simpl.
  induction (instances (mappings c)) as [|p l IH]; by simpl.
Qed.

Lemma mutex_events_Engine_dtor s c1 c2 c3 c4 :
  slot BlockCipher (engine s) = Some c1 →
  slot StreamCipher (engine s) = Some c2 →
  slot HashFunction (engine s) = Some c3 →
  slot MessageAuthenticationCode (engine s) = Some c4 →
  made (Engine_dtor s) = made (trace s)
  ∧ mutexes_deleted (Engine_dtor s)
    = mutexes_deleted (trace s) ++ [mutex c1; mutex c2; mutex c3; mutex c4].
Proof.
  simpl. intros H1 H2 H3 H4. unfold Engine_dtor.
  rewrite H1, H2, H3, H4. simpl. trace_simpl.
  destruct (mutex_events_dtor c1) as [-> ->].
  destruct (mutex_events_dtor c2) as [-> ->].
  destruct (mutex_events_dtor c3) as [-> ->].
  destruct (mutex_events_dtor c4) as [-> ->].
  by rewrite app_nil_r.
Qed.


(** X14: [initialize] does not look at what is there: called on an engine
    that already has caches, it replaces all four by empty ones and deletes
    nothing, so the instances and the mutexes of the caches it replaces are
    deleted neither by it nor by a destructor that runs right after it. *)
Theorem initialize_again_drops_the_caches (mf : Mutex_Factory) (s : state) :
  ∃ mf' s', initialize mf s = Returns mf' s'
          ∧ owned (engine s') = []
          ∧ deleted (Engine_dtor s') = deleted (trace s)
          ∧ mutexes_deleted (Engine_dtor s')
            = mutexes_deleted (trace s)
              ++ [(make mf).1; (make (make mf).2).1;
                  (make (make (make mf).2).2).1;
                  (make (make (make (make mf).2).2).2).1].
Proof.
  rewrite initialize_unfold. eexists _, _. split; [done|].
  split; [|split].
  - unfold owned. simpl. by rewrite !instances_empty.
  - rewrite deleted_Engine_dtor. unfold owned. simpl.
    rewrite !instances_empty. by trace_simpl.
  - match goal with |- context [Engine_dtor ?s1] =>
      destruct (mutex_events_Engine_dtor s1 _ _ _ _
                  eq_refl eq_refl eq_refl eq_refl) as [_ ->]
    end.
    simpl. by trace_simpl.
Qed.

(** X15: an [add] under a name that has no entry only adds: nothing is
    deleted, the map has one entry more, and every name keeps the instance
    it had. *)
Theorem add_under_new_name (c : Algorithm_Cache_Impl) (algo : ptr)
    (index_name : string) :
  is_set algo = true →
  mappings c !! add_key algo index_name = None →
  (add c algo index_name).2
  = [Lock (mutex c); Assign (add_key algo index_name) algo; Unlock (mutex c)]
  ∧ size (mappings (add c algo index_name).1) = S (size (mappings c))
  ∧ ∀ n p, mappings c !! n = Some p →
           mappings (add c algo index_name).1 !! n = Some p.
Proof.
  intros Hset Hnew. rewrite add_events, add_mappings by done.
  unfold delete_mapped. rewrite Hnew. split; [done|]. split.
  - by apply map_size_insert_None.
  - intros n p Hn. rewrite lookup_insert_ne; [done|]. congruence.
Qed.

(** X16: a lookup under a non-empty canonical name deletes nothing: on an
    engine none of whose caches maps a name to null, such a lookup, whether
    it hits, finds or fails, leaves every entry of every cache in place, so
    no pointer handed out before is invalidated by it. *)
Theorem lookup_deletes_nothing (k : prim) (request : SCAN_Name)
    (af : Algorithm_Factory) (s s' : state) (r : ptr) :
  no_null_entry s →
  as_string request ≠ "" →
  prototype k request af s = Returns r s' →
  deleted (trace s') = deleted (trace s)
  ∧ ∀ k' c n p, slot k' (engine s) = Some c → mappings c !! n = Some p →
                ∃ c', slot k' (engine s') = Some c'
                      ∧ mappings c' !! n = Some p.
Proof.
  intros Hnn Hne. rewrite prototype_unfold.
  destruct (slot k (engine s)) as [c|] eqn:Hc; [|done]. simpl.
  destruct (is_set (search_map _ _)) eqn:Hhit.
  { intros [= _ <-]. simpl. trace_simpl. split; [done|]. eauto. }
  assert (Hmiss : mappings c !! as_string request = None).
  { revert Hhit. unfold search_map.
    destruct (mappings c !! as_string request) as [p|] eqn:Hp; [|done].
    by rewrite (Hnn k c _ p Hc Hp). }
  destruct (is_set (find k request af)) eqn:Hset; intros [= _ <-]; simpl.
  - trace_simpl. rewrite deleted_add, Hset, add_key_given, Hmiss by done.
    simpl. rewrite app_nil_r. split; [done|].
    intros k' c0 n p Hc0 Hn. destruct (decide (k = k')) as [<-|Hk].
    + rewrite slot_set_slot_eq. eexists. split; [done|].
      rewrite add_mappings, add_key_given by done.
      rewrite lookup_insert_ne; congruence.
    + rewrite slot_set_slot_ne by done. eauto.
  - trace_simpl. split; [done|]. eauto.
Qed.

End engine.

Arguments Register {SCAN_Name Algorithm_Factory} k algo.
Arguments Acquire {SCAN_Name Algorithm_Factory} k request af.

(** ** The theorems at work in the sample world *)

Abbreviation sample_add := (add Sample.algo_name) (only parsing).
Abbreviation sample_cache_add := (cache_add Sample.algo_name) (only parsing).
Abbreviation sample_add_algorithm :=
  (add_algorithm Sample.algo_name) (only parsing).
Abbreviation sample_prototype :=
  (prototype Sample.algo_name string Sample.as_string N
     Sample.find Sample.find Sample.find Sample.find) (only parsing).
Abbreviation sample_lifetime :=
  (lifetime Sample.algo_name string Sample.as_string N
     Sample.find Sample.find Sample.find Sample.find N Sample.make)
  (only parsing).

(** A hit on AES-128 in the warm engine: object 1 comes back, no search. *)
Lemma prototype_hit_skips_search_witness :
  sample_prototype BlockCipher "AES-128" 9%N Sample.warm
  = Returns 1%N (mkState (engine Sample.warm) [Lock 100%N; Unlock 100%N])
  ∧ searches [Lock 100%N; Unlock 100%N] = [].
Proof.
  apply (prototype_hit_skips_search Sample.algo_name string Sample.as_string N
           Sample.find Sample.find Sample.find Sample.find
           BlockCipher "AES-128" 9%N Sample.warm
           (Sample.one_entry "AES-128" 1%N) 1%N);
    reflexivity.
Defined.

(** A miss on SHA-160 in the fresh engine: one search, object 3 stored
    under SHA-160. *)
Lemma prototype_miss_searches_witness :
  sample_prototype HashFunction "SHA-160" 3%N Sample.fresh
  = Returns 3%N
      (mkState
         (set_slot HashFunction
            (Some (mkCache 102%N (<["SHA-160" := 3%N]> ∅))) (engine Sample.fresh))
         ((trace Sample.fresh
           ++ [Lock 102%N; Unlock 102%N; Search HashFunction "SHA-160"])
          ++ [Lock 102%N; Assign "SHA-160" 3%N; Unlock 102%N])).
Proof.
  apply (prototype_miss_searches Sample.algo_name string Sample.as_string N
           Sample.find Sample.find Sample.find Sample.find
           HashFunction "SHA-160" 3%N Sample.fresh (mkCache 102%N ∅));
    [reflexivity | reflexivity | reflexivity | discriminate].
Defined.

(** With an empty canonical name the found object is not stored under that
    name: object 3 ends up under its own name, SHA-160. *)
Lemma prototype_miss_empty_name_counterexample :
  match sample_prototype StreamCipher "" 3%N Sample.fresh with
  | Returns r s' =>
      r = 3%N
      ∧ cached_under StreamCipher "" s' = null
      ∧ cached_under StreamCipher "SHA-160" s' = 3%N
  | _ => False
  end.
Proof. vm_compute. auto. Qed.

(** Replacing object 1 by object 2 under AES-128. *)
Lemma add_replaces_and_deletes_once_witness :
  (sample_add (Sample.one_entry "AES-128" 1%N) 2%N "").2
  = [Lock 100%N; Delete 1%N; Assign "AES-128" 2%N; Unlock 100%N]
  ∧ none_dangling (sample_add (Sample.one_entry "AES-128" 1%N) 2%N "").1
      (sample_add (Sample.one_entry "AES-128" 1%N) 2%N "").2.
Proof.
  destruct (add_replaces_and_deletes_once Sample.algo_name
              (Sample.one_entry "AES-128" 1%N) 2%N "" 1%N
              eq_refl eq_refl) as (Hevs & _ & _ & _ & _ & Hsafe).
  split; [exact Hevs|]. apply Hsafe.
  - intros n1 n2 p H1 H2. simpl in H1, H2.
    apply lookup_singleton_Some in H1 as [<- _].
    apply lookup_singleton_Some in H2 as [<- _]. reflexivity.
  - intros [n Hn]. simpl in Hn.
    apply lookup_singleton_Some in Hn as [_ [=]].
Defined.

(** Registering object 1 once more deletes it and leaves it in the map. *)
Lemma add_same_instance_counterexample :
  ¬ none_dangling (sample_add (Sample.one_entry "AES-128" 1%N) 1%N "").1
      (sample_add (Sample.one_entry "AES-128" 1%N) 1%N "").2.
Proof.
  intros Hsafe. apply (Hsafe 1%N).
  - vm_compute. apply list_elem_of_here.
  - exists "AES-128". reflexivity.
Qed.

(** A lifetime of five calls in which every object handed over is new. *)
Lemma teardown_deletes_each_instance_once_witness :
  ∃ t, sample_lifetime 100%N
         [Register BlockCipher 1%N; Register BlockCipher 2%N;
          Acquire HashFunction "SHA-160" 3%N;
          Acquire HashFunction "SHA-160" 4%N;
          Acquire HashFunction "MD5" 0%N]
       = Some t
     ∧ NoDup (deleted t)
     ∧ ∀ p, p ∈ assigned t → times_deleted p t = 1.
Proof.
  destruct (teardown_deletes_each_instance_once Sample.algo_name string
              Sample.as_string N Sample.find Sample.find Sample.find
              Sample.find N Sample.make) as (_ & _ & Hlife).
  apply (Hlife 100%N 104%N _ Sample.fresh).
  - reflexivity.
  - apply (bool_decide_unpack _). vm_compute. exact I.
Defined.

(** Registering object 1 twice: it is deleted twice before the engine is
    gone. *)
Lemma double_registration_counterexample :
  ∃ t, sample_lifetime 100%N
         [Register BlockCipher 1%N; Register BlockCipher 1%N]
       = Some t
     ∧ times_deleted 1%N t = 2.
Proof. eexists. split; [vm_compute; reflexivity|]. vm_compute. reflexivity. Qed.

(** Registering a null pointer with the warm engine changes nothing. *)
Lemma add_null_is_noop_witness :
  sample_add (Sample.one_entry "AES-128" 1%N) null "AES-128"
  = (Sample.one_entry "AES-128" 1%N, [])
  ∧ sample_cache_add BlockCipher null "AES-128" Sample.warm
    = Returns tt Sample.warm
  ∧ sample_add_algorithm BlockCipher null Sample.warm = Returns tt Sample.warm.
Proof.
  apply (add_null_is_noop Sample.algo_name (Sample.one_entry "AES-128" 1%N)
           "AES-128" BlockCipher Sample.warm).
  reflexivity.
Defined.

(** Object 3 added under the name MD5, and registered under its own. *)
Lemma add_stores_under_given_or_own_name_witness :
  sample_add (mkCache 102%N ∅) 3%N "MD5"
  = (mkCache 102%N (<["MD5" := 3%N]> ∅),
     [Lock 102%N; Assign "MD5" 3%N; Unlock 102%N])
  ∧ sample_add_algorithm HashFunction 3%N Sample.fresh
    = Returns tt
        (mkState
           (set_slot HashFunction
              (Some (mkCache 102%N (<["SHA-160" := 3%N]> ∅)))
              (engine Sample.fresh))
           (trace Sample.fresh
            ++ [Lock 102%N; Assign "SHA-160" 3%N; Unlock 102%N])).
Proof.
  exact (add_stores_under_given_or_own_name Sample.algo_name
           (mkCache 102%N ∅) 3%N "MD5" HashFunction Sample.fresh
           eq_refl eq_refl).
Defined.

(** Object 2 added with an explicit empty name goes under AES-128. *)
Lemma add_empty_name_is_default_witness :
  sample_add (mkCache 100%N ∅) 2%N ""
  = sample_add (mkCache 100%N ∅) 2%N default_index_name
  ∧ mappings (sample_add (mkCache 100%N ∅) 2%N "").1 !! "AES-128" = Some 2%N
  ∧ mappings (sample_add (mkCache 100%N ∅) 2%N "").1 !! "" = None.
Proof.
  destruct (add_empty_name_is_default Sample.algo_name (mkCache 100%N ∅) 2%N
              eq_refl) as (Hsame & _ & Hown & Hothers & _).
  split; [exact Hsame|]. split; [exact Hown|].
  rewrite (Hothers ""); [reflexivity | discriminate].
Defined.

(** Object 5 has the empty name: added with the empty name (or with none)
    it is stored under the empty string. *)
Lemma add_nameless_instance_counterexample :
  mappings (sample_add (mkCache 100%N ∅) 5%N "").1 !! "" ≠ None.
Proof. vm_compute. discriminate. Qed.

(** A lookup and a registration on a newly constructed engine. *)
Lemma uninitialized_call_is_undefined_witness :
  sample_prototype BlockCipher "AES-128" 1%N (mkState Engine_ctor [])
  = Undefined
  ∧ sample_add_algorithm BlockCipher 1%N (mkState Engine_ctor []) = Undefined.
Proof.
  destruct (uninitialized_call_is_undefined Sample.algo_name string
              Sample.as_string N Sample.find Sample.find Sample.find
              Sample.find BlockCipher (mkState Engine_ctor []) eq_refl)
    as (Hlookup & Hregister & _).
  split; [apply Hlookup | apply Hregister].
Defined.

(** The lookup on a newly constructed engine is not a checked failure. *)
Lemma uninitialized_lookup_counterexample :
  signalled
    (prototype_block_cipher Sample.algo_name string Sample.as_string N
       Sample.find Sample.find Sample.find Sample.find
       "AES-128" 1%N (mkState Engine_ctor []))
  ≠ true.
Proof. vm_compute. discriminate. Qed.

(** The pointer to object 1 outlives an [add] under another name and does
    not outlive one under AES-128. *)
Lemma view_dies_when_superseded_witness :
  view_valid (get (Sample.one_entry "AES-128" 1%N) "AES-128").1
    (sample_add (Sample.one_entry "AES-128" 1%N) 3%N "").2
  ∧ ¬ view_valid (get (Sample.one_entry "AES-128" 1%N) "AES-128").1
        (sample_add (Sample.one_entry "AES-128" 1%N) 2%N "AES-128").2.
Proof.
  split.
  - apply (view_dies_when_superseded Sample.algo_name
             (Sample.one_entry "AES-128" 1%N) "AES-128" 3%N "" eq_refl).
    intros [_ Hmapped]. vm_compute in Hmapped. discriminate.
  - apply (view_dies_when_superseded Sample.algo_name
             (Sample.one_entry "AES-128" 1%N) "AES-128" 2%N "AES-128" eq_refl);
      reflexivity.
Defined.

(** The pointer [get] returned for AES-128 is dangling once object 2 is
    added under AES-128. *)
Lemma view_after_replacement_counterexample :
  ¬ view_valid (get (Sample.one_entry "AES-128" 1%N) "AES-128").1
      (sample_add (Sample.one_entry "AES-128" 1%N) 2%N "AES-128").2.
Proof.
  intros Hvalid. apply Hvalid. vm_compute. apply list_elem_of_here.
Qed.

(** ** More of the sample world *)

Abbreviation sample_perform_all :=
  (perform_all Sample.algo_name string Sample.as_string N
     Sample.find Sample.find Sample.find Sample.find) (only parsing).
Abbreviation sample_initialize := (initialize N Sample.make) (only parsing).
Abbreviation state_after o :=
  (match o with Returns _ s' => s' | _ => Sample.fresh end) (only parsing).
Abbreviation trace_of o :=
  (match o with Some t => t | None => [] end) (only parsing).

Lemma sample_fresh_initialized : initialized Sample.fresh.
Proof. intros []; eexists; reflexivity. Defined.

Lemma sample_warm_initialized : initialized Sample.warm.
Proof. intros []; eexists; reflexivity. Defined.

Lemma sample_warm_no_null_entry : no_null_entry Sample.warm.
Proof.
  intros k c n p Hc Hn. destruct k; simpl in Hc; injection Hc as <-;
    simpl in Hn.
  - apply lookup_singleton_Some in Hn as [_ <-]. reflexivity.
  - rewrite lookup_empty in Hn. discriminate.
  - rewrite lookup_empty in Hn. discriminate.
  - rewrite lookup_empty in Hn. discriminate.
Defined.

(** Object 3 added beside object 1: found under SHA-160, and AES-128 still
    gives object 1. *)
Lemma add_then_get_witness :
  (get (sample_add (Sample.one_entry "AES-128" 1%N) 3%N "").1 "SHA-160").1
  = 3%N
  ∧ (get (sample_add (Sample.one_entry "AES-128" 1%N) 3%N "").1 "AES-128").1
    = 1%N.
Proof.
  destruct (add_then_get Sample.algo_name (Sample.one_entry "AES-128" 1%N)
              3%N "" eq_refl) as [Hsame Hother].
  split; [exact Hsame|].
  rewrite (Hother "AES-128"); [reflexivity | discriminate].
Defined.

(** Objects 1 and 2, both AES-128, added in turn: object 1 is deleted and
    object 2 is what the cache gives. *)
Lemma add_twice_keeps_the_last_witness :
  deleted (sample_add (sample_add (mkCache 100%N ∅) 1%N "").1 2%N "").2
  = [1%N]
  ∧ (get (sample_add (sample_add (mkCache 100%N ∅) 1%N "").1 2%N "").1
       "AES-128").1 = 2%N.
Proof.
  destruct (add_twice_keeps_the_last Sample.algo_name (mkCache 100%N ∅)
              1%N 2%N "" "" eq_refl eq_refl eq_refl) as (_ & Hdel & Hget).
  split; [exact Hdel | exact Hget].
Defined.

(** SHA-160 looked up twice in the fresh engine: one search. *)
Lemma prototype_miss_then_hit_witness :
  ∃ s1 s2,
    sample_prototype HashFunction "SHA-160" 3%N Sample.fresh = Returns 3%N s1
    ∧ sample_prototype HashFunction "SHA-160" 4%N s1 = Returns 3%N s2
    ∧ engine s2 = engine s1
    ∧ searches (trace s2) = [(HashFunction, "SHA-160")].
Proof.
  refine (prototype_miss_then_hit Sample.algo_name string Sample.as_string N
            Sample.find Sample.find Sample.find Sample.find
            HashFunction "SHA-160" "SHA-160" 3%N 4%N Sample.fresh
            (mkCache 102%N ∅) eq_refl eq_refl eq_refl _ eq_refl).
  discriminate.
Defined.

(** Object 1 registered, then AES-128 looked up: no search. *)
Lemma register_then_acquire_witness :
  ∃ s1 s2,
    sample_add_algorithm BlockCipher 1%N Sample.fresh = Returns tt s1
    ∧ sample_prototype BlockCipher "AES-128" 9%N s1 = Returns 1%N s2
    ∧ engine s2 = engine s1
    ∧ searches (trace s2) = [].
Proof.
  exact (register_then_acquire Sample.algo_name string Sample.as_string N
           Sample.find Sample.find Sample.find Sample.find
           BlockCipher 1%N "AES-128" 9%N Sample.fresh (mkCache 100%N ∅)
           eq_refl eq_refl eq_refl).
Defined.

(** Block cipher calls on the fresh engine leave the hash cache alone. *)
Lemma other_kinds_untouched_witness :
  (∀ request af r s',
     sample_prototype BlockCipher request af Sample.fresh = Returns r s' →
     slot HashFunction (engine s') = slot HashFunction (engine Sample.fresh))
  ∧ (∀ algo s',
       sample_add_algorithm BlockCipher algo Sample.fresh = Returns tt s' →
       slot HashFunction (engine s')
       = slot HashFunction (engine Sample.fresh)).
Proof.
  apply (other_kinds_untouched Sample.algo_name string Sample.as_string N
           Sample.find Sample.find Sample.find Sample.find
           BlockCipher HashFunction Sample.fresh).
  discriminate.
Defined.

(** The object a lookup of SHA-160 returns is in the hash cache. *)
Lemma returned_instance_is_held_witness :
  ∃ c', slot HashFunction
          (engine (state_after
                     (sample_prototype HashFunction "SHA-160" 3%N Sample.fresh)))
        = Some c'
      ∧ holds (mappings c') 3%N.
Proof.
  apply (returned_instance_is_held Sample.algo_name string Sample.as_string N
           Sample.find Sample.find Sample.find Sample.find
           HashFunction "SHA-160" 3%N Sample.fresh
           (state_after
              (sample_prototype HashFunction "SHA-160" 3%N Sample.fresh))
           3%N eq_refl).
  reflexivity.
Defined.


(** AES-128 stays cached in the warm engine over a replacement and a
    lookup of another name. *)
Lemma cached_names_stay_cached_witness :
  is_set
    (cached_under BlockCipher "AES-128"
       (state_after
          (sample_perform_all
             [Register BlockCipher 2%N; Acquire BlockCipher "AES-256" 7%N]
             Sample.warm)))
  = true.
Proof.
  apply (cached_names_stay_cached Sample.algo_name string Sample.as_string N
           Sample.find Sample.find Sample.find Sample.find
           [Register BlockCipher 2%N; Acquire BlockCipher "AES-256" 7%N]
           Sample.warm _ BlockCipher "AES-128" sample_warm_initialized);
    reflexivity.
Defined.

(** A null registration and a real one after [initialize]. *)
Lemma entries_are_never_null_witness :
  no_null_entry
    (state_after
       (sample_perform_all [Register BlockCipher 0%N; Register BlockCipher 1%N]
          Sample.fresh)).
Proof.
  apply (entries_are_never_null Sample.algo_name string Sample.as_string N
           Sample.find Sample.find Sample.find Sample.find N Sample.make
           100%N 104%N
           [Register BlockCipher 0%N; Register BlockCipher 1%N]
           (mkState Engine_ctor []) Sample.fresh _ eq_refl eq_refl).
Defined.

(** The events of a registration and two lookups obey the lock rules. *)
Lemma calls_keep_lock_discipline_witness :
  ∃ evs,
    trace (state_after
             (sample_perform_all
                [Register BlockCipher 1%N; Acquire HashFunction "SHA-160" 3%N;
                 Acquire HashFunction "MD5" 0%N] Sample.fresh))
    = trace Sample.fresh ++ evs
    ∧ locking None evs = Some None.
Proof.
  apply (calls_keep_lock_discipline Sample.algo_name string Sample.as_string N
           Sample.find Sample.find Sample.find Sample.find
           [Register BlockCipher 1%N; Acquire HashFunction "SHA-160" 3%N;
            Acquire HashFunction "MD5" 0%N]
           Sample.fresh _ sample_fresh_initialized eq_refl).
Defined.

(** One registration and two lookups: two searches at most. *)
Lemma searches_come_from_lookups_witness :
  ∃ found,
    searches
      (trace (state_after
                (sample_perform_all
                   [Register BlockCipher 1%N;
                    Acquire HashFunction "SHA-160" 3%N;
                    Acquire HashFunction "SHA-160" 4%N] Sample.fresh)))
    = searches (trace Sample.fresh) ++ found
    ∧ (length found ≤ 2)%nat
    ∧ ∀ k n, (k, n) ∈ found →
             ∃ request af,
               Acquire k request af
               ∈ [Register BlockCipher 1%N;
                  Acquire HashFunction "SHA-160" 3%N;
                  Acquire HashFunction "SHA-160" 4%N]
               ∧ Sample.as_string request = n.
Proof.
  apply (searches_come_from_lookups Sample.algo_name string Sample.as_string N
           Sample.find Sample.find Sample.find Sample.find
           [Register BlockCipher 1%N; Acquire HashFunction "SHA-160" 3%N;
            Acquire HashFunction "SHA-160" 4%N]
           Sample.fresh _ eq_refl).
Defined.


(** Object 1 added to an empty cache. *)
Lemma add_under_new_name_witness :
  (sample_add (mkCache 100%N ∅) 1%N "").2
  = [Lock 100%N; Assign "AES-128" 1%N; Unlock 100%N]
  ∧ size (mappings (sample_add (mkCache 100%N ∅) 1%N "").1) = 1.
Proof.
  assert (Hnew : mappings (mkCache 100%N ∅) !! add_key Sample.algo_name 1%N ""
                 = None) by reflexivity.
  destruct (add_under_new_name Sample.algo_name (mkCache 100%N ∅) 1%N ""
              eq_refl Hnew) as (Hevs & Hsize & _).
  split; [exact Hevs | exact Hsize].
Defined.

(** AES-256 looked up in the warm engine: found and stored, and nothing is
    deleted. *)
Lemma lookup_deletes_nothing_witness :
  deleted
    (trace (state_after
              (sample_prototype BlockCipher "AES-256" 7%N Sample.warm)))
  = deleted (trace Sample.warm).
Proof.
  apply (lookup_deletes_nothing Sample.algo_name string Sample.as_string N
           Sample.find Sample.find Sample.find Sample.find
           BlockCipher "AES-256" 7%N Sample.warm _ 7%N
           sample_warm_no_null_entry);
    [discriminate | reflexivity].
Defined.

